(** * Labeling Studio and grouped resource table: a shallow embedding

    The development follows two components of the dashboard:

    - [components/LabelingStudio.tsx]: the four label strategies
      (STATIC, PATTERN, REGEX, CLEANUP), the per-resource change list built
      by [processChange], the preview map [previewData], the payload built
      by [handleApply] and the apply gate [isValid];
    - the resource table: the grouped display sequence [displayItems], its
      page count and the page-reset effect.

    Conventions.  A label record ([Record<string, string>]) is a finite map
    [gmap string string]; a lookup that yields [undefined] in the source is
    [None] here (keys are taken not to name members of [Object.prototype],
    as the TypeScript type says).  A string is a sequence of code units,
    each written as an [ascii].  A [number] used as an array index is an
    integer [Z]; an index that is negative (or, in the source, [NaN])
    selects nothing.  A JavaScript [Map] is an insertion-ordered
    association list. *)

From Stdlib Require Import ZArith Ascii.
From stdpp Require Import gmap strings list fin_maps sorting.

(** ** JavaScript runtime notions used by the components *)

Module Js.

(** [if (s)] on a string: the empty string is falsy. *)
Definition truthy (s : string) : bool :=
  match s with
  | EmptyString => false
  | String _ _ => true
  end.

(** [if (x)] on [string | undefined | null]. *)
Definition truthy_opt (o : option string) : bool :=
  match o with
  | Some s => truthy s
  | None => false
  end.

(** [arr[i]] for a number [i]: [undefined] outside the array. *)
Definition at_index {A : Type} (arr : list A) (i : Z) : option A :=
  if decide (0 ≤ i)%Z then arr !! Z.to_nat i else None.

(** The scanning loop of [String.prototype.split] for a non-empty
    separator: [cur] is the token being read, [skip] the number of code
    units of an already recognised separator still to pass over. *)
Fixpoint split_from (sep : string) (skip : nat) (cur s : string)
  : list string :=
  match s with
  | EmptyString => [cur]
  | String c s' =>
      match skip with
      | S n => split_from sep n cur s'
      | O =>
          if String.prefix sep s
          then cur :: split_from sep (String.length sep - 1) EmptyString s'
          else split_from sep 0 (cur +:+ String c EmptyString) s'
      end
  end.

(** [s.split(sep)] for a string separator.  With the empty separator the
    string falls apart into its code units (and the empty string into no
    token at all). *)
Definition split (s sep : string) : list string :=
  match sep with
  | EmptyString =>
      (λ c, String c EmptyString) <$> String.list_ascii_of_string s
  | String _ _ => split_from sep 0 EmptyString s
  end.

End Js.

(** ** [Map<string, V>]: insertion-ordered, one entry per key *)

Module JsMap.
Section ops.
Context {V : Type}.

(** [m.set(k, v)]: replaces in place, or appends a new entry. *)
Fixpoint set (k : string) (v : V) (m : list (string * V))
  : list (string * V) :=
  match m with
  | [] => [(k, v)]
  | (k', v') :: m' =>
      if decide (k = k') then (k, v) :: m' else (k', v') :: set k v m'
  end.

(** [m.get(k)] *)
Fixpoint get (k : string) (m : list (string * V)) : option V :=
  match m with
  | [] => None
  | (k', v') :: m' => if decide (k = k') then Some v' else get k m'
  end.

(** [m.has(k)] *)
Definition has (k : string) (m : list (string * V)) : bool :=
  bool_decide (is_Some (get k m)).

(** [Array.from(m.keys())] *)
Definition keys (m : list (string * V)) : list string := m.*1.

(** [m.size] *)
Definition size (m : list (string * V)) : nat := length m.
End ops.
End JsMap.

(** ** Data model *)

(** The fields of [GceResource] read by the two components. *)
Record GceResource := {
  id : string;
  name : string;
  labels : gmap string string
}.

Inductive Change :=
| ADD (key value : string)
| UPDATE (key oldValue newValue : string)
| DELETE (key oldValue : string).

#[global] Instance Change_eq_dec : EqDecision Change.
Proof. solve_decision. Defined.

Inductive Mode := STATIC | PATTERN | REGEX | CLEANUP.

#[global] Instance Mode_eq_dec : EqDecision Mode.
Proof. solve_decision. Defined.

(** The component state the preview depends on (the dependency list of the
    [previewData] memo, [selectedResources] apart). *)
Record StudioState := {
  mode : Mode;
  staticLabels : list (string * string);      (* {key, value} rows *)
  delimiter : string;
  mappings : list (Z * string);               (* {position, key} *)
  regexPattern : string;
  regexGroups : list (Z * string);            (* {index, key} *)
  keysToRemove : list string
}.

(** One entry of the preview map. *)
Record PreviewEntry := {
  original : gmap string string;
  new : gmap string string;
  changes : list Change
}.

(** The regular-expression engine of the runtime: [new RegExp(pattern)]
    either yields a regular expression or throws ([None]); [name.match(re)]
    for a regular expression without the global flag yields [null] ([None])
    or the match array, whose entry 0 is the matched text and whose entry
    [i] is the text of capture group [i], [undefined] ([None]) when the
    group did not take part in the match. *)
Class RegExpEngine := {
  RegExp : Type;
  newRegExp : string → option RegExp;
  String_match : string → RegExp → option (list (option string))
}.

(** The validator module [utils/validation]: an error message, or [null]. *)
Class Validator := {
  validateKey : string → option string;
  validateValue : string → option string
}.

(** ** The preview computation of [LabelingStudio] *)

Section Preview.
Context `{RegExpEngine}.

(** The per-resource state of the [forEach] body: [newLabels] and
    [changes]. *)
Definition RuleState : Type := gmap string string * list Change.

(** [processChange(key, value)] inside the body for a resource whose
    label record is [r_labels]. *)
Definition processChange (r_labels : gmap string string)
    (st : RuleState) (key value : string) : RuleState :=
  let '(newLabels, changes) := st in
  let changes' :=
    match r_labels !! key with
    | None => changes ++ [ADD key value]
    | Some old =>
        if decide (old = value) then changes
        else changes ++ [UPDATE key old value]
    end in
  (<[key := value]> newLabels, changes').

(** STATIC: [staticLabels.forEach(({key, value}) => ...)] *)
Definition staticStep (r_labels : gmap string string)
    (st : RuleState) (row : string * string) : RuleState :=
  let '(key, value) := row in
  if Js.truthy key && Js.truthy value
  then processChange r_labels st key value
  else st.

(** PATTERN: [mappings.forEach(({position, key}) => ...)] *)
Definition patternStep (r_labels : gmap string string)
    (parts : list string) (st : RuleState) (m : Z * string) : RuleState :=
  let '(position, key) := m in
  match Js.at_index parts position with
  | Some part =>
      if Js.truthy key && Js.truthy part
      then processChange r_labels st key part
      else st
  | None => st
  end.

(** REGEX: [regexGroups.forEach(({index, key}) => ...)] *)
Definition regexStep (r_labels : gmap string string)
    (match_ : list (option string)) (st : RuleState) (g : Z * string)
  : RuleState :=
  let '(index, key) := g in
  match Js.at_index match_ index with
  | Some (Some text) =>
      if Js.truthy key && Js.truthy text
      then processChange r_labels st key text
      else st
  | _ => st
  end.

(** CLEANUP: [keysToRemove.forEach(k => ...)] *)
Definition cleanupStep (st : RuleState) (k : string) : RuleState :=
  let '(newLabels, changes) := st in
  if Js.truthy k then
    match newLabels !! k with
    | Some old => (delete k newLabels, changes ++ [DELETE k old])
    | None => st
    end
  else st.

(** The compiled expression of one run: [null] unless the mode is REGEX
    and the constructor did not throw. *)
Definition compiledRegex (s : StudioState) : option RegExp :=
  match mode s with
  | REGEX => newRegExp (regexPattern s)
  | _ => None
  end.

(** The body of [selectedResources.forEach(r => ...)] up to the final
    test: the candidate [newLabels] and the [changes] of [r]. *)
Definition evalResource (s : StudioState) (regex : option RegExp)
    (r : GceResource) : RuleState :=
  let st0 : RuleState := (labels r, []) in
  match mode s with
  | STATIC => foldl (staticStep (labels r)) st0 (staticLabels s)
  | PATTERN =>
      let parts := Js.split (name r) (delimiter s) in
      foldl (patternStep (labels r) parts) st0 (mappings s)
  | REGEX =>
      match regex with
      | Some re =>
          match String_match (name r) re with
          | Some match_ =>
              foldl (regexStep (labels r) match_) st0 (regexGroups s)
          | None => st0
          end
      | None => st0
      end
  | CLEANUP => foldl cleanupStep st0 (keysToRemove s)
  end.

(** One iteration of the [forEach]: the entry is stored only when the
    change list is not empty. *)
Definition previewStep (s : StudioState) (regex : option RegExp)
    (updates : list (string * PreviewEntry)) (r : GceResource)
  : list (string * PreviewEntry) :=
  let '(newLabels, chs) := evalResource s regex r in
  match chs with
  | [] => updates
  | _ :: _ =>
      JsMap.set (id r)
        {| original := labels r; new := newLabels; changes := chs |}
        updates
  end.

(** [previewData] *)
Definition previewData (selectedResources : list GceResource)
    (s : StudioState) : list (string * PreviewEntry) :=
  foldl (previewStep s (compiledRegex s)) [] selectedResources.

(** The map handed to [onApply] by [handleApply]. *)
Definition handleApply (selectedResources : list GceResource)
    (s : StudioState) : list (string * gmap string string) :=
  foldl (λ updates kv, JsMap.set kv.1 (new kv.2) updates) []
    (previewData selectedResources s).

End Preview.

(** ** The apply gate of [LabelingStudio] *)

Section Gate.
Context `{Validator}.

(** One element of [staticLabelErrors]. *)
Record RowErrors := {
  key_error : option string;
  value_error : option string
}.

(** [staticLabelErrors]: completely empty rows are ignored. *)
Definition staticLabelErrors (rows : list (string * string))
  : list RowErrors :=
  (λ l : string * string,
     if negb (Js.truthy l.1) && negb (Js.truthy l.2)
     then {| key_error := None; value_error := None |}
     else {| key_error := validateKey l.1;
             value_error := validateValue l.2 |}) <$> rows.

(** The rows kept by the filter of the STATIC branch of [isValid]. *)
Definition validRows (rows : list (string * string))
  : list (string * string) :=
  List.filter
    (λ l : string * string,
       Js.truthy l.1 && negb (Js.truthy_opt (validateKey l.1))
       && negb (Js.truthy_opt (validateValue l.2)))
    rows.

(** [hasErrors] of the STATIC branch of [isValid]. *)
Definition hasErrors (rows : list (string * string)) : bool :=
  existsb
    (λ e, Js.truthy_opt (key_error e) || Js.truthy_opt (value_error e))
    (staticLabelErrors rows).

(** [isValid] *)
Definition isValid (s : StudioState) : bool :=
  match mode s with
  | STATIC =>
      (0 <? length (validRows (staticLabels s)))
      && negb (hasErrors (staticLabels s))
  | PATTERN => existsb (λ m : Z * string, Js.truthy m.2) (mappings s)
  | REGEX => existsb (λ g : Z * string, Js.truthy g.2) (regexGroups s)
  | CLEANUP => existsb Js.truthy (keysToRemove s)
  end.

End Gate.

(** ** The grouped display sequence of the resource table *)

Inductive DisplayItem :=
| header (key label : string) (count : nat) (isCollapsed : bool)
| resource (data : GceResource).

Definition noLabelKey : string := "Unassigned".

(** [r.labels[groupByLabel] || noLabelKey] *)
Definition groupValue (groupByLabel : string) (r : GceResource) : string :=
  match labels r !! groupByLabel with
  | Some v => if Js.truthy v then v else noLabelKey
  | None => noLabelKey
  end.

(** Step 1, one resource: create the bucket if needed, then push. *)
Definition groupStep (groupByLabel : string)
    (groups : list (string * list GceResource)) (r : GceResource)
  : list (string * list GceResource) :=
  let val := groupValue groupByLabel r in
  let groups1 :=
    if JsMap.has val groups then groups else JsMap.set val [] groups in
  match JsMap.get val groups1 with
  | Some bucket => JsMap.set val (bucket ++ [r]) groups1
  | None => groups1
  end.

Definition groupResources (groupByLabel : string)
    (filteredResources : list GceResource)
  : list (string * list GceResource) :=
  foldl (groupStep groupByLabel) [] filteredResources.

(** Step 2: [Array.prototype.sort] without a comparator orders strings by
    their code units. *)
Fixpoint insertSorted (k : string) (ks : list string) : list string :=
  match ks with
  | [] => [k]
  | k' :: ks' =>
      if String.ltb k k' then k :: ks else k' :: insertSorted k ks'
  end.

Definition sortKeys (ks : list string) : list string :=
  foldl (λ acc k, insertSorted k acc) [] ks.

(** Step 3, one group: the header, then the members unless collapsed. *)
Definition flattenStep (groups : list (string * list GceResource))
    (collapsedGroups : gset string) (items : list DisplayItem)
    (key : string) : list DisplayItem :=
  let members := default [] (JsMap.get key groups) in
  let isCollapsed := bool_decide (key ∈ collapsedGroups) in
  let items1 := items ++ [header key key (length members) isCollapsed] in
  if isCollapsed then items1 else items1 ++ (resource <$> members).

(** [displayItems] *)
Definition displayItems (filteredResources : list GceResource)
    (groupByLabel : string) (collapsedGroups : gset string)
  : list DisplayItem :=
  if negb (Js.truthy groupByLabel) then resource <$> filteredResources
  else
    let groups := groupResources groupByLabel filteredResources in
    let sortedKeys := sortKeys (JsMap.keys groups) in
    foldl (flattenStep groups collapsedGroups) [] sortedKeys.

(** [toggleGroupCollapse] *)
Definition toggleGroupCollapse (groupKey : string)
    (collapsedGroups : gset string) : gset string :=
  if bool_decide (groupKey ∈ collapsedGroups)
  then collapsedGroups ∖ {[groupKey]}
  else collapsedGroups ∪ {[groupKey]}.

(** *** Pagination over the display sequence

    Page numbers and sizes are integers; the page size handed out by the
    filter hook is at least 1, and the statements below assume so. *)

(** [Math.ceil(totalItems / itemsPerPage)] for a positive page size. *)
Definition totalPages (totalItems itemsPerPage : Z) : Z :=
  ((totalItems + itemsPerPage - 1) / itemsPerPage)%Z.

(** The page-validity effect: the value of the current page once the
    effect has run. *)
Definition pageEffect (defaultCurrentPage totalPages_ : Z) : Z :=
  if bool_decide (defaultCurrentPage > totalPages_)%Z
     && bool_decide (totalPages_ > 0)%Z
  then 1%Z else defaultCurrentPage.

(** [arr.slice(start, end)] *)
Definition slice {A : Type} (arr : list A) (start end_ : Z) : list A :=
  let len := Z.of_nat (length arr) in
  let from :=
    if bool_decide (start < 0)%Z then Z.max (len + start) 0
    else Z.min start len in
  let to :=
    if bool_decide (end_ < 0)%Z then Z.max (len + end_) 0
    else Z.min end_ len in
  take (Z.to_nat (to - from)) (drop (Z.to_nat from) arr).

Definition startIndex (defaultCurrentPage itemsPerPage : Z) : Z :=
  ((defaultCurrentPage - 1) * itemsPerPage)%Z.

(** [paginatedDisplayItems] *)
Definition paginatedDisplayItems (items : list DisplayItem)
    (defaultCurrentPage itemsPerPage : Z) : list DisplayItem :=
  let start := startIndex defaultCurrentPage itemsPerPage in
  slice items start (start + itemsPerPage).

(** ** A regular-expression engine for a fragment of the pattern language

    An instance of [RegExpEngine] on which the strategies can be run:
    literals, [.], the escapes [\d \w \s] (and their complements), classes
    [[a-z0-9_]] and [[^...]], capture groups, [(?:...)], alternation, the
    greedy quantifiers [* + ?] and the anchors [^ $].  Patterns outside the
    fragment are rejected by this instance. *)

Module MiniRegExp.

Inductive Re :=
| Empty
| Chars (negated : bool) (ranges : list (ascii * ascii))
| Bol
| Eol
| Seq (a b : Re)
| Alt (a b : Re)
| Star (a : Re)
| Group (n : nat) (a : Re).

Definition in_range (c : ascii) (rg : ascii * ascii) : bool :=
  (nat_of_ascii rg.1 <=? nat_of_ascii c)
  && (nat_of_ascii c <=? nat_of_ascii rg.2).

Definition in_class (negated : bool) (ranges : list (ascii * ascii))
    (c : ascii) : bool :=
  xorb negated (existsb (in_range c) ranges).

Definition digit : list (ascii * ascii) := [("0", "9")]%char.
Definition word : list (ascii * ascii) :=
  [("a", "z"); ("A", "Z"); ("0", "9"); ("_", "_")]%char.
Definition space : list (ascii * ascii) :=
  [(" ", " "); ("009", "013")]%char.
Definition newline : list (ascii * ascii) :=
  [("010", "010"); ("013", "013")]%char.

(** The class named by the code unit after a backslash; [None] for an
    escape outside the fragment. *)
Definition escape (c : ascii) : option (bool * list (ascii * ascii)) :=
  if Ascii.eqb c "d" then Some (false, digit)
  else if Ascii.eqb c "D" then Some (true, digit)
  else if Ascii.eqb c "w" then Some (false, word)
  else if Ascii.eqb c "W" then Some (true, word)
  else if Ascii.eqb c "s" then Some (false, space)
  else if Ascii.eqb c "S" then Some (true, space)
  else if in_class false word c then None
  else Some (false, [(c, c)]).

(** *** Parsing *)

(** The items of a class up to the closing bracket. *)
Fixpoint parseClass (fuel : nat) (s : list ascii)
  : option (list (ascii * ascii) * list ascii) :=
  match fuel with
  | O => None
  | S fuel' =>
      match s with
      | [] => None
      | "]"%char :: s1 => Some ([], s1)
      | "\"%char :: c :: s1 =>
          match escape c with
          | Some (false, rs) =>
              '(rest, s2) ← parseClass fuel' s1; Some (rs ++ rest, s2)
          | _ => None
          end
      | lo :: "-"%char :: hi :: s1 =>
          if Ascii.eqb hi "]" then
            '(rest, s2) ← parseClass fuel' ("-"%char :: hi :: s1);
            Some ((lo, lo) :: rest, s2)
          else if nat_of_ascii hi <? nat_of_ascii lo then None
          else '(rest, s2) ← parseClass fuel' s1; Some ((lo, hi) :: rest, s2)
      | c :: s1 =>
          '(rest, s2) ← parseClass fuel' s1; Some ((c, c) :: rest, s2)
      end
  end.

(** A quantifier after an atom, if any. *)
Definition parseQuant (a : Re) (s : list ascii) : option (Re * list ascii) :=
  let lazy_or_braces (s1 : list ascii) :=
    match s1 with
    | "?"%char :: _ | "*"%char :: _ | "+"%char :: _ | "{"%char :: _ => true
    | _ => false
    end in
  match s with
  | "*"%char :: s1 =>
      if lazy_or_braces s1 then None else Some (Star a, s1)
  | "+"%char :: s1 =>
      if lazy_or_braces s1 then None else Some (Seq a (Star a), s1)
  | "?"%char :: s1 =>
      if lazy_or_braces s1 then None else Some (Alt a Empty, s1)
  | "{"%char :: _ => None
  | _ => Some (a, s)
  end.

(** Alternatives, sequences and atoms; [n] counts the groups opened so
    far. *)
Fixpoint parseAlt (fuel : nat) (s : list ascii) (n : nat)
  : option (Re * list ascii * nat) :=
  match fuel with
  | O => None
  | S fuel' =>
      let parseAtom (s : list ascii) (n : nat) :=
        match s with
        | "("%char :: "?"%char :: ":"%char :: s1 =>
            '(a, s2, n1) ← parseAlt fuel' s1 n;
            match s2 with
            | ")"%char :: s3 => Some (a, s3, n1)
            | _ => None
            end
        | "("%char :: "?"%char :: _ => None
        | "("%char :: s1 =>
            '(a, s2, n1) ← parseAlt fuel' s1 (S n);
            match s2 with
            | ")"%char :: s3 => Some (Group (S n) a, s3, n1)
            | _ => None
            end
        | "["%char :: "^"%char :: s1 =>
            '(rs, s2) ← parseClass fuel' s1; Some (Chars true rs, s2, n)
        | "["%char :: s1 =>
            '(rs, s2) ← parseClass fuel' s1; Some (Chars false rs, s2, n)
        | "\"%char :: c :: s1 =>
            '(neg, rs) ← escape c; Some (Chars neg rs, s1, n)
        | "\"%char :: [] => None
        | "."%char :: s1 => Some (Chars true newline, s1, n)
        | "^"%char :: s1 => Some (Bol, s1, n)
        | "$"%char :: s1 => Some (Eol, s1, n)
        | "*"%char :: _ | "+"%char :: _ | "?"%char :: _
        | "{"%char :: _ | "}"%char :: _ | "]"%char :: _ => None
        | c :: s1 => Some (Chars false [(c, c)], s1, n)
        | [] => None
        end in
      let fix parseSeq (fuel1 : nat) (s : list ascii) (n : nat)
        : option (Re * list ascii * nat) :=
        match fuel1 with
        | O => None
        | S fuel1' =>
            match s with
            | [] | "|"%char :: _ | ")"%char :: _ => Some (Empty, s, n)
            | _ =>
                '(a, s1, n1) ← parseAtom s n;
                '(a', s2) ← parseQuant a s1;
                '(b, s3, n2) ← parseSeq fuel1' s2 n1;
                Some (Seq a' b, s3, n2)
            end
        end in
      '(a, s1, n1) ← parseSeq fuel s n;
      match s1 with
      | "|"%char :: s2 =>
          '(b, s3, n2) ← parseAlt fuel' s2 n1; Some (Alt a b, s3, n2)
      | _ => Some (a, s1, n1)
      end
  end.

(** A compiled expression: the syntax tree and its number of groups. *)
Definition compile (pattern : string) : option (Re * nat) :=
  let s := String.list_ascii_of_string pattern in
  match parseAlt (S (length s)) s 0 with
  | Some (re, [], n) => Some (re, n)
  | _ => None
  end.

(** *** Matching by backtracking *)

Record MState := {
  at_start : bool;
  rest : list ascii;
  caps : gmap nat string
}.

Definition consumed (before after : list ascii) : string :=
  String.string_of_list_ascii (take (length before - length after) before).

Fixpoint run (re : Re) (k : MState → option MState) (st : MState)
  : option MState :=
  match re with
  | Empty => k st
  | Chars neg rs =>
      match rest st with
      | c :: s' =>
          if in_class neg rs c
          then k {| at_start := false; rest := s'; caps := caps st |}
          else None
      | [] => None
      end
  | Bol => if at_start st then k st else None
  | Eol => match rest st with [] => k st | _ :: _ => None end
  | Seq a b => run a (run b k) st
  | Alt a b =>
      match run a k st with
      | Some r => Some r
      | None => run b k st
      end
  | Star a =>
      (fix star (n : nat) (st : MState) : option MState :=
         match n with
         | O => k st
         | S n' =>
             match
               run a
                 (λ st', if length (rest st') <? length (rest st)
                         then star n' st' else None) st
             with
             | Some r => Some r
             | None => k st
             end
         end) (length (rest st)) st
  | Group n a =>
      run a
        (λ st', k {| at_start := at_start st'; rest := rest st';
                     caps := <[n := consumed (rest st) (rest st')]>
                               (caps st') |}) st
  end.

(** The leftmost match, as the array [[whole, group 1, ..., group n]]. *)
Fixpoint search (re : Re) (groups : nat) (first : bool) (s : list ascii)
  : option (list (option string)) :=
  match
    run re Some {| at_start := first; rest := s; caps := ∅ |}
  with
  | Some st =>
      Some (Some (consumed s (rest st))
            :: ((λ i, caps st !! i) <$> seq 1 groups))
  | None =>
      match s with
      | [] => None
      | _ :: s' => search re groups false s'
      end
  end.

Definition exec (s : string) (re : Re * nat)
  : option (list (option string)) :=
  search re.1 re.2 true (String.list_ascii_of_string s).

#[global] Instance engine : RegExpEngine := {|
  RegExp := Re * nat;
  newRegExp := compile;
  String_match := exec
|}.

End MiniRegExp.

(** ** The preview computation over the object store

    The same [forEach] body with label records as mutable objects of a
    store: [r.labels] is a reference, [{ ...r.labels }] allocates a copy,
    [newLabels[key] = value] and [delete newLabels[k]] write through the
    reference of the copy. *)

Module Store.

(** A resource object: its [labels] field holds a reference. *)
Record ResourceObj := {
  o_id : string;
  o_name : string;
  o_labels : nat
}.

(** An entry of the preview map: [original] aliases [r.labels]. *)
Record EntryObj := {
  o_original : nat;
  o_new : nat;
  o_changes : list Change
}.

(** Computations over the store. *)
Definition M (A : Type) : Type :=
  gmap nat (gmap string string) → A * gmap nat (gmap string string).

Definition ret {A : Type} (a : A) : M A := λ h, (a, h).

Definition bind {A B : Type} (m : M A) (f : A → M B) : M B :=
  λ h, let '(a, h') := m h in f a h'.

Notation "'let*' x ':=' m 'in' f" := (bind m (λ x, f))
  (at level 10, x pattern, m at level 100, f at level 200).

(** [arr.forEach] with the variables the callback updates. *)
Fixpoint foldM {A S : Type} (f : S → A → M S) (acc : S) (l : list A)
  : M S :=
  match l with
  | [] => ret acc
  | a :: l' => let* acc' := f acc a in foldM f acc' l'
  end.

(** [o[key]] *)
Definition getProp (o : nat) (key : string) : M (option string) :=
  λ h, (h !! o ≫= (λ m, m !! key), h).

(** [o[key] = value] *)
Definition setProp (o : nat) (key value : string) : M unit :=
  λ h, (tt, alter (insert key value) o h).

(** [delete o[key]] *)
Definition deleteProp (o : nat) (key : string) : M unit :=
  λ h, (tt, alter (delete key) o h).

(** [{ ...o }]: a new object with the own properties of [o]. *)
Definition spread (o : nat) : M nat :=
  λ h, let o' := fresh (dom h) in (o', <[o' := default ∅ (h !! o)]> h).

Section Preview.
Context `{RegExpEngine}.

Definition processChange (r : ResourceObj) (newLabels : nat)
    (changes : list Change) (key value : string) : M (list Change) :=
  let* old := getProp (o_labels r) key in
  let changes' :=
    match old with
    | None => changes ++ [ADD key value]
    | Some old =>
        if decide (old = value) then changes
        else changes ++ [UPDATE key old value]
    end in
  let* _ := setProp newLabels key value in
  ret changes'.

Definition staticStep (r : ResourceObj) (newLabels : nat)
    (changes : list Change) (row : string * string) : M (list Change) :=
  let '(key, value) := row in
  if Js.truthy key && Js.truthy value
  then processChange r newLabels changes key value
  else ret changes.

Definition patternStep (r : ResourceObj) (newLabels : nat)
    (parts : list string) (changes : list Change) (m : Z * string)
  : M (list Change) :=
  let '(position, key) := m in
  match Js.at_index parts position with
  | Some part =>
      if Js.truthy key && Js.truthy part
      then processChange r newLabels changes key part
      else ret changes
  | None => ret changes
  end.

Definition regexStep (r : ResourceObj) (newLabels : nat)
    (match_ : list (option string)) (changes : list Change)
    (g : Z * string) : M (list Change) :=
  let '(index, key) := g in
  match Js.at_index match_ index with
  | Some (Some text) =>
      if Js.truthy key && Js.truthy text
      then processChange r newLabels changes key text
      else ret changes
  | _ => ret changes
  end.

Definition cleanupStep (newLabels : nat) (changes : list Change)
    (k : string) : M (list Change) :=
  if Js.truthy k then
    let* old := getProp newLabels k in
    match old with
    | Some old =>
        let* _ := deleteProp newLabels k in
        ret (changes ++ [DELETE k old])
    | None => ret changes
    end
  else ret changes.

Definition evalResource (s : StudioState) (regex : option RegExp)
    (r : ResourceObj) : M (nat * list Change) :=
  let* newLabels := spread (o_labels r) in
  let* changes :=
    match mode s with
    | STATIC => foldM (staticStep r newLabels) [] (staticLabels s)
    | PATTERN =>
        let parts := Js.split (o_name r) (delimiter s) in
        foldM (patternStep r newLabels parts) [] (mappings s)
    | REGEX =>
        match regex with
        | Some re =>
            match String_match (o_name r) re with
            | Some match_ =>
                foldM (regexStep r newLabels match_) [] (regexGroups s)
            | None => ret []
            end
        | None => ret []
        end
    | CLEANUP => foldM (cleanupStep newLabels) [] (keysToRemove s)
    end in
  ret (newLabels, changes).

Definition previewStep (s : StudioState) (regex : option RegExp)
    (updates : list (string * EntryObj)) (r : ResourceObj)
  : M (list (string * EntryObj)) :=
  let* (newLabels, chs) := evalResource s regex r in
  ret match chs with
      | [] => updates
      | _ :: _ =>
          JsMap.set (o_id r)
            {| o_original := o_labels r; o_new := newLabels;
               o_changes := chs |}
            updates
      end.

Definition previewData (selectedResources : list ResourceObj)
    (s : StudioState) : M (list (string * EntryObj)) :=
  foldM (previewStep s (compiledRegex s)) [] selectedResources.

End Preview.

(** *** Reading objects back as values *)

Definition read (h : gmap nat (gmap string string)) (o : nat)
  : gmap string string :=
  default ∅ (h !! o).

Definition readResource (h : gmap nat (gmap string string))
    (r : ResourceObj) : GceResource :=
  {| id := o_id r; name := o_name r; labels := read h (o_labels r) |}.

Definition readEntry (h : gmap nat (gmap string string)) (e : EntryObj)
  : PreviewEntry :=
  {| original := read h (o_original e); new := read h (o_new e);
     changes := o_changes e |}.

Definition readPreview (h : gmap nat (gmap string string))
    (m : list (string * EntryObj)) : list (string * PreviewEntry) :=
  prod_map (λ k : string, k) (readEntry h) <$> m.

End Store.

(** ** A validator in the style of the provider's label rules

    An instance of [Validator] on which the gate can be run: keys are
    required, start with a lowercase letter and, like values, hold at most
    63 lowercase letters, digits, underscores and dashes. *)

Module SampleValidator.

Definition label_char (c : ascii) : bool :=
  MiniRegExp.in_class false
    [("a", "z"); ("0", "9"); ("_", "_"); ("-", "-")]%char c.

Definition check_key (k : string) : option string :=
  match String.list_ascii_of_string k with
  | [] => Some "Key is required"
  | c :: _ =>
      if 63 <? String.length k then Some "Key is too long"
      else if negb (MiniRegExp.in_class false [("a", "z")]%char c)
      then Some "Key must start with a lowercase letter"
      else if forallb label_char (String.list_ascii_of_string k) then None
      else Some "Key has invalid characters"
  end.

Definition check_value (v : string) : option string :=
  if 63 <? String.length v then Some "Value is too long"
  else if forallb label_char (String.list_ascii_of_string v) then None
  else Some "Value has invalid characters".

#[global] Instance validator : Validator := {|
  validateKey := check_key;
  validateValue := check_value
|}.

End SampleValidator.

(** ** Notions used to state the properties *)




(** The record [processChange] pushes for one (key, value), if any. *)
Definition changeOf (r_labels : gmap string string) (kv : string * string)
  : option Change :=
  match r_labels !! kv.1 with
  | None => Some (ADD kv.1 kv.2)
  | Some old =>
      if decide (old = kv.2) then None else Some (UPDATE kv.1 old kv.2)
  end.

(** The (key, value) a row, mapping or group hands to [processChange], if
    its guard lets it through. *)
Definition staticRule (row : string * string) : option (string * string) :=
  if Js.truthy row.1 && Js.truthy row.2 then Some row else None.

Definition patternRule (parts : list string) (m : Z * string)
  : option (string * string) :=
  match Js.at_index parts m.1 with
  | Some part =>
      if Js.truthy m.2 && Js.truthy part then Some (m.2, part) else None
  | None => None
  end.

Definition regexRule (match_ : list (option string)) (g : Z * string)
  : option (string * string) :=
  match Js.at_index match_ g.1 with
  | Some (Some text) =>
      if Js.truthy g.2 && Js.truthy text then Some (g.2, text) else None
  | _ => None
  end.

Section Rules.
Context `{RegExpEngine}.

(** The calls of [processChange] made for resource [r], in order. *)
Definition appliedRules (s : StudioState) (r : GceResource)
  : list (string * string) :=
  match mode s with
  | STATIC => omap staticRule (staticLabels s)
  | PATTERN =>
      omap (patternRule (Js.split (name r) (delimiter s))) (mappings s)
  | REGEX =>
      match compiledRegex s with
      | Some re =>
          match String_match (name r) re with
          | Some match_ => omap (regexRule match_) (regexGroups s)
          | None => []
          end
      | None => []
      end
  | CLEANUP => []
  end.

(** The candidate label record and the change list of [r] in one run. *)
Definition candidate (s : StudioState) (r : GceResource)
  : gmap string string :=
  (evalResource s (compiledRegex s) r).1.

Definition changesOf (s : StudioState) (r : GceResource) : list Change :=
  (evalResource s (compiledRegex s) r).2.

(** The entry [previewData] stores for [r], if it stores one. *)
Definition entryFor (s : StudioState) (r : GceResource)
  : option (string * PreviewEntry) :=
  match changesOf s r with
  | [] => None
  | chs =>
      Some (id r, {| original := labels r; new := candidate s r;
                     changes := chs |})
  end.
End Rules.

(** The keys the rules of the active strategy name. *)
Definition targetedKeys (s : StudioState) : list string :=
  match mode s with
  | STATIC => (staticLabels s).*1
  | PATTERN => (mappings s).*2
  | REGEX => (regexGroups s).*2
  | CLEANUP => keysToRemove s
  end.

(** The members of group [g], in the order of the filtered list. *)
Definition members (groupByLabel g : string)
    (filteredResources : list GceResource) : list GceResource :=
  List.filter (λ r, bool_decide (groupValue groupByLabel r = g))
    filteredResources.

(** The block of display rows of one group. *)
Definition groupBlock (groupByLabel : string)
    (filteredResources : list GceResource) (collapsedGroups : gset string)
    (g : string) : list DisplayItem :=
  let ms := members groupByLabel g filteredResources in
  header g g (length ms) (bool_decide (g ∈ collapsedGroups))
  :: (if bool_decide (g ∈ collapsedGroups) then [] else resource <$> ms).

(** An error message that counts as one in [isValid] and
    [staticLabelErrors]. *)
Definition reportsError (o : option string) : Prop :=
  Js.truthy_opt o = true.

(** [newLabels] after the given calls of [processChange]. *)
Definition applyAll (m : gmap string string) (rules : list (string * string))
  : gmap string string :=
  foldl (λ acc kv, <[kv.1 := kv.2]> acc) m rules.


(** ** Inputs for running the components *)

(** The initial state of the studio. *)
Definition initialState : StudioState :=
  {| mode := STATIC;
     staticLabels := [("", "")];
     delimiter := "-";
     mappings := [(0%Z, "")];
     regexPattern := "^([a-z]+)-([a-z]+)-(\d+)$";
     regexGroups := [(1%Z, "env"); (2%Z, "app")];
     keysToRemove := [""] |}.

Definition withStatic (rows : list (string * string)) : StudioState :=
  {| mode := STATIC; staticLabels := rows;
     delimiter := delimiter initialState; mappings := mappings initialState;
     regexPattern := regexPattern initialState;
     regexGroups := regexGroups initialState;
     keysToRemove := keysToRemove initialState |}.

Definition withPattern (d : string) (ms : list (Z * string)) : StudioState :=
  {| mode := PATTERN; staticLabels := staticLabels initialState;
     delimiter := d; mappings := ms;
     regexPattern := regexPattern initialState;
     regexGroups := regexGroups initialState;
     keysToRemove := keysToRemove initialState |}.

Definition withRegex (p : string) (gs : list (Z * string)) : StudioState :=
  {| mode := REGEX; staticLabels := staticLabels initialState;
     delimiter := delimiter initialState; mappings := mappings initialState;
     regexPattern := p; regexGroups := gs;
     keysToRemove := keysToRemove initialState |}.

Definition withCleanup (ks : list string) : StudioState :=
  {| mode := CLEANUP; staticLabels := staticLabels initialState;
     delimiter := delimiter initialState; mappings := mappings initialState;
     regexPattern := regexPattern initialState;
     regexGroups := regexGroups initialState;
     keysToRemove := ks |}.

Definition mkResource (i n : string) (l : list (string * string))
  : GceResource :=
  {| id := i; name := n; labels := list_to_map l |}.

(** [setKeysToRemove] *)
Definition setKeysToRemove (ks : list string) (s : StudioState)
  : StudioState :=
  {| mode := mode s; staticLabels := staticLabels s;
     delimiter := delimiter s; mappings := mappings s;
     regexPattern := regexPattern s; regexGroups := regexGroups s;
     keysToRemove := ks |}.


(** The original label record without the listed keys that pass the guard
    of the CLEANUP callback. *)
Definition withoutListedNonEmpty (orig : gmap string string)
    (ks : list string) : gmap string string :=
  filter (λ kv : string * string, ¬ (kv.1 ≠ "" ∧ kv.1 ∈ ks)) orig.



(** The apply gate in the words of the specification: for STATIC, some row
    has a non-empty valid key and a valid value, and no row with a
    non-empty key has a validation error. *)
Definition gateAsSpecified `{Validator} (s : StudioState) : bool :=
  let ok (l : string * string) :=
    negb (Js.truthy_opt (validateKey l.1))
    && negb (Js.truthy_opt (validateValue l.2)) in
  match mode s with
  | STATIC =>
      existsb (λ l, Js.truthy l.1 && ok l) (staticLabels s)
      && forallb (λ l, negb (Js.truthy l.1) || ok l) (staticLabels s)
  | PATTERN => existsb (λ m : Z * string, Js.truthy m.2) (mappings s)
  | REGEX => existsb (λ g : Z * string, Js.truthy g.2) (regexGroups s)
  | CLEANUP => existsb Js.truthy (keysToRemove s)
  end.




(** The group keys in display order. *)
Definition groupKeys (groupByLabel : string)
    (filteredResources : list GceResource) : list string :=
  sortKeys (JsMap.keys (groupResources groupByLabel filteredResources)).

(** The display rows of pages 1 to [n], one after the other. *)
Definition pagesUpTo (items : list DisplayItem) (n : nat) (itemsPerPage : Z)
  : list DisplayItem :=
  concat ((λ p : nat, paginatedDisplayItems items (Z.of_nat p) itemsPerPage)
            <$> seq 1 n).

(** A step over the store that acts on the copy [nl] as the step over
    values acts on [newLabels]. *)
Definition simulates {A : Type}
    (stepH : list Change → A → Store.M (list Change))
    (step : RuleState → A → RuleState) (nl : nat)
    (h : gmap nat (gmap string string)) : Prop :=
  ∀ chs a (m : gmap string string),
    stepH chs a (<[nl := m]> h)
    = ((step (m, chs) a).2, <[nl := (step (m, chs) a).1]> h).

(** The entries name allocated objects only. *)
Definition allocated (h : gmap nat (gmap string string))
    (res : list (string * Store.EntryObj)) : Prop :=
  ∀ k e, (k, e) ∈ res →
         is_Some (h !! Store.o_original e) ∧ is_Some (h !! Store.o_new e).

(** Two stores in which the resource object of ["r1"] reads the same; the
    second one holds another object as well. *)
Definition storeA : gmap nat (gmap string string) :=
  {[ 0 := {[ "env" := "dev"; "team" := "core" ]} ]}.

Definition storeB : gmap nat (gmap string string) :=
  <[ 3 := {[ "owner" := "ops" ]} ]> storeA.

Definition objR1 : Store.ResourceObj :=
  {| Store.o_id := "r1"; Store.o_name := "prod-web-1"; Store.o_labels := 0 |}.

(** * More of the two components *)

(** ** [LabelingStudio]: editing the parameters *)

(** [setStaticLabels], [setMappings], [setRegexGroups] *)
Definition setStaticLabels (rows : list (string * string)) (s : StudioState)
  : StudioState :=
  {| mode := mode s; staticLabels := rows;
     delimiter := delimiter s; mappings := mappings s;
     regexPattern := regexPattern s; regexGroups := regexGroups s;
     keysToRemove := keysToRemove s |}.

Definition setMappings (ms : list (Z * string)) (s : StudioState)
  : StudioState :=
  {| mode := mode s; staticLabels := staticLabels s;
     delimiter := delimiter s; mappings := ms;
     regexPattern := regexPattern s; regexGroups := regexGroups s;
     keysToRemove := keysToRemove s |}.

Definition setRegexGroups (gs : list (Z * string)) (s : StudioState)
  : StudioState :=
  {| mode := mode s; staticLabels := staticLabels s;
     delimiter := delimiter s; mappings := mappings s;
     regexPattern := regexPattern s; regexGroups := gs;
     keysToRemove := keysToRemove s |}.

(** The "Add Field", "Add Mapping", "Add Group" and "Add Key" buttons. *)
Definition addField (s : StudioState) : StudioState :=
  setStaticLabels (staticLabels s ++ [("", "")]) s.

Definition addMapping (s : StudioState) : StudioState :=
  setMappings (mappings s ++ [(Z.of_nat (length (mappings s)), "")]) s.

Definition addGroup (s : StudioState) : StudioState :=
  setRegexGroups
    (regexGroups s ++ [((Z.of_nat (length (regexGroups s)) + 1)%Z, "")]) s.

Definition addKey (s : StudioState) : StudioState :=
  setKeysToRemove (keysToRemove s ++ [""]) s.

(** [arr.filter((x, i) => keep(x, i))] *)
Definition filterIndexed {A : Type} (keep : A → nat → bool) (arr : list A)
  : list A :=
  omap (λ x : option A, x)
    (imap (λ i x, if keep x i then Some x else None) arr).

(** [p.filter((_, i) => i !== idx)], the remove button of a row. *)
Definition removeAt {A : Type} (idx : nat) (p : list A) : list A :=
  filterIndexed (λ _ i, negb (i =? idx)) p.

(** The remove buttons of the four parameter lists. *)
Definition removeField (idx : nat) (s : StudioState) : StudioState :=
  setStaticLabels (removeAt idx (staticLabels s)) s.

Definition removeMapping (idx : nat) (s : StudioState) : StudioState :=
  setMappings (removeAt idx (mappings s)) s.

Definition removeGroup (idx : nat) (s : StudioState) : StudioState :=
  setRegexGroups (removeAt idx (regexGroups s)) s.

Definition removeKey (idx : nat) (s : StudioState) : StudioState :=
  setKeysToRemove (removeAt idx (keysToRemove s)) s.

(** ** [LabelingStudio]: custom templates

    The state of the template form, and with each handler the array it
    hands to [JSON.stringify] for the local storage ([None]: nothing is
    written). *)
Record Template := {
  t_label : string;
  t_key : string;
  t_value : string
}.

Record TemplateForm := {
  customTemplates : list Template;
  newTemplate : Template;
  isAddingTemplate : bool
}.

Definition blankTemplate : Template :=
  {| t_label := ""; t_key := ""; t_value := "" |}.

(** [saveCustomTemplate] *)
Definition saveCustomTemplate (f : TemplateForm)
  : TemplateForm * option (list Template) :=
  if negb (Js.truthy (t_label (newTemplate f)))
     || negb (Js.truthy (t_key (newTemplate f)))
     || negb (Js.truthy (t_value (newTemplate f)))
  then (f, None)
  else
    let updated := customTemplates f ++ [newTemplate f] in
    ({| customTemplates := updated; newTemplate := blankTemplate;
        isAddingTemplate := false |}, Some updated).

(** [deleteCustomTemplate] *)
Definition deleteCustomTemplate (idx : nat) (f : TemplateForm)
  : TemplateForm * option (list Template) :=
  let updated := removeAt idx (customTemplates f) in
  ({| customTemplates := updated; newTemplate := newTemplate f;
      isAddingTemplate := isAddingTemplate f |}, Some updated).

(** A template with a label, a key and a value. *)
Definition complete (t : Template) : Prop :=
  t_label t ≠ "" ∧ t_key t ≠ "" ∧ t_value t ≠ "".

(** The "Apply" button is enabled: [!(!isValid || previewData.size === 0)]. *)
Definition applyEnabled `{RegExpEngine} `{Validator}
    (selectedResources : list GceResource) (s : StudioState) : bool :=
  negb (negb (isValid s)
        || bool_decide (JsMap.size (previewData selectedResources s) = 0)).

(** What a change record does to a label record. *)
Definition applyChange (m : gmap string string) (c : Change)
  : gmap string string :=
  match c with
  | ADD k v => <[k := v]> m
  | UPDATE k _ v => <[k := v]> m
  | DELETE k _ => delete k m
  end.



(** ** [LabelingStudio]: the tokenization preview *)

(** [selectedResources[0]?.name || ''] *)
Definition sampleName (selectedResources : list GceResource) : string :=
  match selectedResources with
  | r :: _ => if Js.truthy (name r) then name r else ""
  | [] => ""
  end.

(** [sampleTokens] *)
Definition sampleTokens (selectedResources : list GceResource)
    (delimiter : string) : list string :=
  Js.split (sampleName selectedResources) delimiter.

(** [arr.find(p)] and [arr.findIndex(p)]; [None] is [undefined], resp. -1. *)
Fixpoint find {A : Type} (p : A → bool) (arr : list A) : option A :=
  match arr with
  | [] => None
  | a :: arr' => if p a then Some a else find p arr'
  end.

Fixpoint findIndex {A : Type} (p : A → bool) (arr : list A) : option nat :=
  match arr with
  | [] => None
  | a :: arr' => if p a then Some 0 else S <$> findIndex p arr'
  end.

Definition MAPPING_COLORS : list string := [
  "bg-blue-100 text-blue-800 border-blue-200 dark:bg-blue-900/40 dark:text-blue-200 dark:border-blue-800";
  "bg-purple-100 text-purple-800 border-purple-200 dark:bg-purple-900/40 dark:text-purple-200 dark:border-purple-800";
  "bg-emerald-100 text-emerald-800 border-emerald-200 dark:bg-emerald-900/40 dark:text-emerald-200 dark:border-emerald-800";
  "bg-amber-100 text-amber-800 border-amber-200 dark:bg-amber-900/40 dark:text-amber-200 dark:border-amber-800";
  "bg-pink-100 text-pink-800 border-pink-200 dark:bg-pink-900/40 dark:text-pink-200 dark:border-pink-800";
  "bg-cyan-100 text-cyan-800 border-cyan-200 dark:bg-cyan-900/40 dark:text-cyan-200 dark:border-cyan-800"
].

Definition defaultGray : string :=
  "bg-slate-100 text-slate-500 border-slate-200 dark:bg-slate-800 dark:text-slate-400 dark:border-slate-700".

(** [getMappingForIndex] *)
Definition getMappingForIndex (mappings : list (Z * string)) (index : Z)
  : option (Z * string) :=
  find (λ m : Z * string, bool_decide (m.1 = index)) mappings.

(** [getMappingColor] *)
Definition getMappingColor (mappings : list (Z * string)) (index : Z)
  : string :=
  match findIndex (λ m : Z * string, bool_decide (m.1 = index)) mappings with
  | None => defaultGray
  | Some mappingIdx =>
      default defaultGray
        (MAPPING_COLORS !! (mappingIdx mod length MAPPING_COLORS))
  end.

(** ** [LabelingStudio]: templates and mapping positions *)

(** The option value of a template: [`${t.key}::${t.value}`]. *)
Definition templateString (key value : string) : string :=
  key +:+ "::" +:+ value.

(** [arr.slice(0, -1)] *)
Definition dropLast {A : Type} (arr : list A) : list A :=
  take (length arr - 1) arr.

(** [addTemplateToStatic]: the static rows after the call.  The call
    destructures [templateString.split('::')] into [k] and [v]; a string
    without the separator leaves [v] undefined, a row value outside the
    type of the rows, which is [None] here. *)
Definition addTemplateToStatic (templateString : string)
    (staticLabels : list (string * string))
  : option (list (string * string)) :=
  if negb (Js.truthy templateString) then Some staticLabels
  else
    match Js.split templateString "::" with
    | k :: v :: _ =>
        if existsb (λ l : string * string, bool_decide (l.1 = k)) staticLabels
        then
          Some ((λ l : string * string,
                   if bool_decide (l.1 = k) then (l.1, v) else l)
                  <$> staticLabels)
        else
          match last staticLabels with
          | Some (EmptyString, EmptyString) =>
              Some (dropLast staticLabels ++ [(k, v)])
          | _ => Some (staticLabels ++ [(k, v)])
          end
    | _ => None
    end.

(** [next.sort((a, b) => a.position - b.position)]: the sort is stable,
    so an element goes behind the elements of the same position that
    precede it. *)
Fixpoint insertByPosition (m : Z * string) (sorted : list (Z * string))
  : list (Z * string) :=
  match sorted with
  | [] => [m]
  | m' :: sorted' =>
      if (m.1 <? m'.1)%Z then m :: sorted
      else m' :: insertByPosition m sorted'
  end.

Definition sortByPosition (ms : list (Z * string)) : list (Z * string) :=
  foldl (λ acc m, insertByPosition m acc) [] ms.


(** A string has no occurrence of [sep]. *)
Definition freeOf (sep s : string) : Prop :=
  ∀ t u, s ≠ t +:+ sep +:+ u.

(** The rows a template does not concern: another key, and not blank. *)
Definition otherRows (k : string) (rows : list (string * string))
  : list (string * string) :=
  List.filter
    (λ l : string * string,
       negb (bool_decide (l.1 = k)) && negb (bool_decide (l = ("", ""))))
    rows.



(** ** The resource table: selection, label keys and display rows *)

(** [toggleSelectAll]: the selected ids after the call. *)
Definition toggleSelectAll (filteredResources : list GceResource)
    (prev : gset string) : gset string :=
  if bool_decide (0 < size prev)
     && bool_decide (size prev = length filteredResources)
  then ∅
  else list_to_set (id <$> filteredResources).

(** [toggleSelect] *)
Definition toggleSelect (i : string) (prev : gset string) : gset string :=
  if bool_decide (i ∈ prev) then prev ∖ {[i]} else prev ∪ {[i]}.

(** [selectedResourcesList] *)
Definition selectedResourcesList (resources : list GceResource)
    (selectedIds : gset string) : list GceResource :=
  List.filter (λ r, bool_decide (id r ∈ selectedIds)) resources.

(** [executeBulkStudioUpdates]: what is handed to [onBulkUpdateLabels],
    if the table was given that handler, and the selected ids after the
    call. *)
Definition executeBulkStudioUpdates {U : Type} (onBulkUpdateLabels : bool)
    (updates : U) (selectedIds : gset string) : option U * gset string :=
  if negb onBulkUpdateLabels then (None, selectedIds)
  else (Some updates, ∅).

(** [handleSort]: the filter configuration handed to [onFilterChange];
    [others] stands for the fields that the spread copies. *)
Inductive SortDirection := asc | desc.

Record FilterConfig (R : Type) := {
  sortKey : option string;
  sortDirection : SortDirection;
  others : R
}.
Arguments sortKey {R} _.
Arguments sortDirection {R} _.
Arguments others {R} _.

Definition handleSort {R : Type} (key : string) (filterConfig : FilterConfig R)
  : FilterConfig R :=
  let direction :=
    if bool_decide (sortKey filterConfig = Some key)
       && match sortDirection filterConfig with asc => true | desc => false end
    then desc else asc in
  {| sortKey := Some key; sortDirection := direction;
     others := others filterConfig |}.

(** [keys.add(k)] on a [Set], which keeps the order of first insertion. *)
Definition setAdd (k : string) (keys : list string) : list string :=
  if bool_decide (k ∈ keys) then keys else keys ++ [k].

(** [availableLabelKeys], for an enumeration [objectKeys] of the own keys
    of a label record ([Object.keys]). *)
Definition availableLabelKeys
    (objectKeys : gmap string string → list string)
    (resources : list GceResource) : list string :=
  sortKeys
    (foldl (λ keys r, foldl (λ keys k, setAdd k keys) keys
                        (objectKeys (labels r)))
       [] resources).

(** [objectKeys] lists the keys of every record, in some order. *)
Definition enumeratesKeys (objectKeys : gmap string string → list string)
  : Prop :=
  ∀ (m : gmap string string) k, k ∈ objectKeys m ↔ is_Some (m !! k).

(** An enumeration of the own keys of a label record. *)
Definition ownKeys (m : gmap string string) : list string :=
  (map_to_list m).*1.

(** The counts shown by the headers, and the resources shown by the rows,
    of a display sequence. *)
Definition headerCounts (items : list DisplayItem) : list nat :=
  omap (λ it, match it with
              | header _ _ n _ => Some n
              | resource _ => None
              end) items.

Definition resourceRows (items : list DisplayItem) : list GceResource :=
  omap (λ it, match it with
              | header _ _ _ _ => None
              | resource r => Some r
              end) items.

(** * Properties *)

(** ** Facts about [Map] *)

Section JsMapFacts.
Context {V : Type}.
Implicit Types (m : list (string * V)) (k : string) (v : V).

Lemma get_set_eq k v m : JsMap.get k (JsMap.set k v m) = Some v.
Proof.
  induction m as [|[k' v'] m IH]; simpl.
  - by rewrite decide_True.
  - destruct (decide (k = k')) as [->|Hne]; simpl.
    + by rewrite decide_True.
    + by rewrite decide_False.
Qed.

Lemma get_set_ne k k' v m :
  k ≠ k' → JsMap.get k' (JsMap.set k v m) = JsMap.get k' m.
Proof.
  intros Hne. induction m as [|[k0 v0] m IH]; simpl.
  - by rewrite decide_False.
  - destruct (decide (k = k0)) as [->|Hne0]; simpl.
    + by rewrite !decide_False.
    + destruct (decide (k' = k0)); done.
Qed.

Lemma get_None k m : JsMap.get k m = None ↔ k ∉ JsMap.keys m.
Proof.
  unfold JsMap.keys. induction m as [|[k' v'] m IH]; simpl.
  - split; [intros _; apply not_elem_of_nil | done].
  - rewrite not_elem_of_cons. destruct (decide (k = k')) as [->|Hne].
    + split; [done | by intros [? _]].
    + rewrite IH. split; [done | by intros [_ ?]].
Qed.

Lemma get_Some_elem k v m : JsMap.get k m = Some v → (k, v) ∈ m.
Proof.
  induction m as [|[k' v'] m IH]; simpl; [done|].
  destruct (decide (k = k')) as [->|Hne].
  - intros [= ->]. apply list_elem_of_here.
  - intros Hg. apply list_elem_of_further. auto.
Qed.

Lemma get_app_notin k m1 m2 :
  k ∉ JsMap.keys m1 → JsMap.get k (m1 ++ m2) = JsMap.get k m2.
Proof.
  unfold JsMap.keys. induction m1 as [|[k' v'] m1 IH]; simpl; [done|].
  rewrite not_elem_of_cons. intros [Hne Hnin].
  rewrite decide_False; auto.
Qed.

Lemma set_notin k v m : k ∉ JsMap.keys m → JsMap.set k v m = m ++ [(k, v)].
Proof.
  unfold JsMap.keys. induction m as [|[k' v'] m IH]; simpl; [done|].
  rewrite not_elem_of_cons. intros [Hne Hnin].
  rewrite decide_False; [|done]. by rewrite IH.
Qed.

Lemma keys_set k v m :
  JsMap.keys (JsMap.set k v m)
  = if decide (k ∈ JsMap.keys m) then JsMap.keys m
    else JsMap.keys m ++ [k].
Proof.
  unfold JsMap.keys. induction m as [|[k' v'] m IH]; csimpl.
  - done.
  - destruct (decide (k = k')) as [->|Hne]; csimpl.
    + rewrite decide_True; [done | apply list_elem_of_here].
    + rewrite IH. destruct (decide (k ∈ m.*1)) as [Hin|Hnin].
      * rewrite decide_True; [done | by apply list_elem_of_further].
      * rewrite decide_False; [done|]. rewrite not_elem_of_cons. done.
Qed.

Lemma keys_set_NoDup k v m :
  NoDup (JsMap.keys m) → NoDup (JsMap.keys (JsMap.set k v m)).
Proof.
  intros Hnd. rewrite keys_set. case_decide; [done|].
  apply NoDup_app. split_and!; [done | | apply NoDup_singleton].
  intros x Hx Hx'. apply list_elem_of_singleton in Hx'. by subst.
Qed.
End JsMapFacts.

(** ** The change list and the candidate as functions of the applied rules *)

Lemma applyAll_snoc m rules kv :
  applyAll m (rules ++ [kv]) = <[kv.1 := kv.2]> (applyAll m rules).
Proof. unfold applyAll. by rewrite foldl_app. Qed.

Lemma applyAll_lookup_notin m rules k :
  k ∉ rules.*1 → applyAll m rules !! k = m !! k.
Proof.
  induction rules as [|kv rules IH] using rev_ind; [done|].
  rewrite fmap_app, not_elem_of_app. simpl.
  rewrite list_elem_of_singleton. intros [Hnin Hne].
  rewrite applyAll_snoc, lookup_insert_ne by done. auto.
Qed.

Lemma applyAll_lookup_last m l1 l2 k v :
  k ∉ l2.*1 → applyAll m (l1 ++ (k, v) :: l2) !! k = Some v.
Proof.
  intros Hnin. unfold applyAll. rewrite foldl_app. simpl.
  fold (applyAll (<[k:=v]> (foldl (λ acc kv, <[kv.1:=kv.2]> acc) m l1)) l2).
  rewrite applyAll_lookup_notin by done. apply lookup_insert_eq.
Qed.

Lemma applyAll_is_Some m rules k :
  is_Some (m !! k) → is_Some (applyAll m rules !! k).
Proof.
  intros Hk. induction rules as [|kv rules IH] using rev_ind; [done|].
  rewrite applyAll_snoc. destruct (decide (kv.1 = k)) as [<-|Hne].
  - rewrite lookup_insert_eq. eauto.
  - by rewrite lookup_insert_ne.
Qed.

Lemma applyAll_lookup_NoDup m rules k v :
  NoDup rules.*1 → (k, v) ∈ rules → applyAll m rules !! k = Some v.
Proof.
  intros Hnd Hin. apply list_elem_of_split in Hin as (l1 & l2 & ->).
  apply applyAll_lookup_last.
  rewrite fmap_app, fmap_cons in Hnd. simpl in Hnd.
  apply NoDup_app in Hnd as (_ & _ & Hnd). by apply NoDup_cons in Hnd as [? _].
Qed.





Section PreviewFacts.
Context `{RegExpEngine}.

Lemma foldl_processChange orig rules m chs :
  foldl (λ st kv, processChange orig st kv.1 kv.2) (m, chs) rules
  = (applyAll m rules, chs ++ omap (changeOf orig) rules).
Proof.
  revert m chs. induction rules as [|[k v] rules IH]; intros m chs; simpl.
  - by rewrite app_nil_r.
  - unfold changeOf at 1. simpl.
    destruct (orig !! k) as [old|]; [case_decide|];
      rewrite IH; unfold applyAll; simpl; by rewrite <-?app_assoc.
Qed.

Lemma foldl_guarded {A : Type} orig (step : RuleState → A → RuleState)
    (rule : A → option (string * string)) :
  (∀ st a, step st a = match rule a with
                       | Some kv => processChange orig st kv.1 kv.2
                       | None => st
                       end) →
  ∀ l m chs,
    foldl step (m, chs) l
    = (applyAll m (omap rule l), chs ++ omap (changeOf orig) (omap rule l)).
Proof.
  intros Hstep l m chs. rewrite <-foldl_processChange.
  generalize (m, chs). clear m chs.
  induction l as [|a l IH]; intros st; simpl; [done|].
  rewrite Hstep. destruct (rule a); simpl; apply IH.
Qed.

(** Outside CLEANUP the body is a sequence of [processChange] calls. *)
Lemma evalResource_rules s r :
  mode s ≠ CLEANUP →
  evalResource s (compiledRegex s) r
  = (applyAll (labels r) (appliedRules s r),
     omap (changeOf (labels r)) (appliedRules s r)).
Proof.
  intros Hmode. unfold evalResource, appliedRules.
  destruct (mode s) eqn:Hm; [| | |done].
  - apply (foldl_guarded (labels r) _ staticRule).
    intros st [k v]. unfold staticStep, staticRule. simpl.
    by destruct (Js.truthy k && Js.truthy v).
  - apply (foldl_guarded (labels r) _
             (patternRule (Js.split (name r) (delimiter s)))).
    intros st [p k]. unfold patternStep, patternRule. simpl.
    destruct (Js.at_index _ p) as [part|]; [|done].
    by destruct (Js.truthy k && Js.truthy part).
  - destruct (compiledRegex s) as [re|]; [|done].
    destruct (String_match (name r) re) as [m|]; [|done].
    apply (foldl_guarded (labels r) _ (regexRule m)).
    intros st [i k]. unfold regexStep, regexRule. simpl.
    destruct (Js.at_index m i) as [[text|]|]; [|done..].
    by destruct (Js.truthy k && Js.truthy text).
Qed.

Lemma candidate_rules s r :
  mode s ≠ CLEANUP →
  candidate s r = applyAll (labels r) (appliedRules s r).
Proof. intros Hm. unfold candidate. by rewrite evalResource_rules. Qed.

Lemma changesOf_rules s r :
  mode s ≠ CLEANUP →
  changesOf s r = omap (changeOf (labels r)) (appliedRules s r).
Proof. intros Hm. unfold changesOf. by rewrite evalResource_rules. Qed.

End PreviewFacts.

(** ** The change set (C1) *)

Section ChangeSet.
Context `{RegExpEngine}.


End ChangeSet.



(** ** CLEANUP (C6) *)

Lemma truthy_nonempty s : Js.truthy s = true ↔ s ≠ "".
Proof. destruct s; simpl; split; done. Qed.

Lemma truthy_empty s : Js.truthy s = false ↔ s = "".
Proof. destruct s; simpl; split; done. Qed.

Lemma cleanupStep_absent st k : st.1 !! k = None → cleanupStep st k = st.
Proof.
  destruct st as [m chs]. simpl. intros Hk. unfold cleanupStep.
  rewrite Hk. by destruct (Js.truthy k).
Qed.

Lemma cleanupStep_falsy st : cleanupStep st "" = st.
Proof. by destruct st. Qed.


Lemma cleanupStep_lookup st k k' :
  (cleanupStep st k).1 !! k'
  = if decide (k ≠ "" ∧ k' = k) then None else st.1 !! k'.
Proof.
  destruct st as [m chs]. unfold cleanupStep.
  destruct (Js.truthy k) eqn:Hk.
  - apply truthy_nonempty in Hk.
    destruct (m !! k) as [old|] eqn:Hm; simpl.
    + case_decide as Hd.
      * destruct Hd as [_ ->]. apply lookup_delete_eq.
      * rewrite lookup_delete_ne; [done|]. naive_solver.
    + case_decide as Hd; [|done]. destruct Hd as [_ ->]. done.
  - apply truthy_empty in Hk. rewrite decide_False; [done|]. naive_solver.
Qed.

Lemma cleanup_lookup ks st k :
  (foldl cleanupStep st ks).1 !! k
  = if decide (k ≠ "" ∧ k ∈ ks) then None else st.1 !! k.
Proof.
  revert st. induction ks as [|k0 ks IH]; intros st; simpl.
  - rewrite decide_False; [done|]. intros [_ Hin]. by apply not_elem_of_nil in Hin.
  - rewrite IH, cleanupStep_lookup.
    destruct (decide (k ≠ "" ∧ k ∈ ks)) as [[Hne Hin]|Hn].
    + rewrite decide_True; [done|]. split; [done|]. by apply list_elem_of_further.
    + destruct (decide (k0 ≠ "" ∧ k = k0)) as [[Hne ->]|Hn0].
      * rewrite decide_True; [done|]. split; [done|]. apply list_elem_of_here.
      * rewrite decide_False; [done|]. intros [Hne Hin].
        apply elem_of_cons in Hin as [->|Hin]; naive_solver.
Qed.

Lemma cleanup_app l1 l2 st :
  foldl cleanupStep st (l1 ++ l2) = foldl cleanupStep (foldl cleanupStep st l1) l2.
Proof. apply foldl_app. Qed.

(** A key that was just handled, or is absent, is handled for good. *)
Lemma cleanup_skip ks k st :
  (k = "" ∨ st.1 !! k = None) →
  foldl cleanupStep st (ks ++ [k]) = foldl cleanupStep st ks.
Proof.
  intros Hk. rewrite cleanup_app. simpl.
  destruct Hk as [->|Hk]; [apply cleanupStep_falsy|].
  apply cleanupStep_absent. rewrite cleanup_lookup.
  by case_decide.
Qed.






Section Cleanup.
Context `{RegExpEngine}.

Lemma evalResource_cleanup s r :
  mode s = CLEANUP →
  evalResource s (compiledRegex s) r
  = foldl cleanupStep (labels r, []) (keysToRemove s).
Proof. intros Hm. unfold evalResource. by rewrite Hm. Qed.

Lemma candidate_cleanup s r :
  mode s = CLEANUP →
  candidate s r = withoutListedNonEmpty (labels r) (keysToRemove s).
Proof.
  intros Hm. unfold candidate. rewrite evalResource_cleanup by done.
  apply map_eq. intros k. rewrite cleanup_lookup. simpl.
  unfold withoutListedNonEmpty.
  destruct (labels r !! k) as [v|] eqn:Hk.
  - case_decide as Hd; symmetry.
    + apply map_lookup_filter_None. right. intros v' _. simpl. naive_solver.
    + apply map_lookup_filter_Some. done.
  - case_decide; symmetry; apply map_lookup_filter_None; by left.
Qed.

End Cleanup.



(** ** The preview map and the payload (C2, C3, C10) *)

Section PreviewMap.
Context `{RegExpEngine}.

Lemma previewStep_entry s updates r :
  previewStep s (compiledRegex s) updates r
  = match entryFor s r with
    | Some (i, e) => JsMap.set i e updates
    | None => updates
    end.
Proof.
  unfold previewStep, entryFor, changesOf, candidate.
  destruct (evalResource s (compiledRegex s) r) as [m chs].
  by destruct chs.
Qed.

Lemma previewData_snoc sel r s :
  previewData (sel ++ [r]) s
  = previewStep s (compiledRegex s) (previewData sel s) r.
Proof. unfold previewData. by rewrite foldl_app. Qed.

Lemma entryFor_id s r i e : entryFor s r = Some (i, e) → i = id r.
Proof. unfold entryFor. destruct (changesOf s r); by intros [= <- _]. Qed.

Lemma entryFor_None s r : entryFor s r = None ↔ changesOf s r = [].
Proof. unfold entryFor. by destruct (changesOf s r). Qed.

Lemma entryFor_Some s r :
  changesOf s r ≠ [] →
  entryFor s r
  = Some (id r, {| original := labels r; new := candidate s r;
                   changes := changesOf s r |}).
Proof. unfold entryFor. by destruct (changesOf s r). Qed.

(** With pairwise different ids every stored entry is appended. *)
Lemma previewData_NoDup sel s :
  NoDup (id <$> sel) → previewData sel s = omap (entryFor s) sel.
Proof.
  induction sel as [|r sel IH] using rev_ind; [done|].
  rewrite fmap_app. intros Hnd. apply NoDup_app in Hnd as (Hnd & Hdisj & _).
  rewrite previewData_snoc, previewStep_entry, omap_app, IH by done.
  csimpl. destruct (entryFor s r) as [[i e]|] eqn:He; csimpl.
  - apply set_notin.
    apply entryFor_id in He as ->. unfold JsMap.keys.
    intros Hin. apply list_elem_of_fmap in Hin as ([i' e'] & Hi & Hin).
    simpl in Hi. apply list_elem_of_omap in Hin as (r' & Hr' & He').
    apply entryFor_id in He'. apply (Hdisj (id r')).
    + apply list_elem_of_fmap. eauto.
    + rewrite <-He', <-Hi. apply list_elem_of_here.
  - by rewrite app_nil_r.
Qed.

(** Every entry of the preview map belongs to a selected resource with a
    non-empty change list. *)
Lemma previewData_get sel s i e :
  JsMap.get i (previewData sel s) = Some e →
  ∃ r, r ∈ sel ∧ entryFor s r = Some (i, e).
Proof.
  induction sel as [|r sel IH] using rev_ind; [done|].
  rewrite previewData_snoc, previewStep_entry.
  destruct (entryFor s r) as [[i' e']|] eqn:He.
  - destruct (decide (i' = i)) as [->|Hne].
    + rewrite get_set_eq. intros [= <-]. exists r. split; [|done].
      apply elem_of_app. right. apply list_elem_of_here.
    + rewrite get_set_ne by done. intros Hg.
      destruct (IH Hg) as (r' & Hr' & He'). exists r'. split; [|done].
      apply elem_of_app. by left.
  - intros Hg. destruct (IH Hg) as (r' & Hr' & He'). exists r'.
    split; [|done]. apply elem_of_app. by left.
Qed.

Lemma previewData_keys_NoDup sel s : NoDup (JsMap.keys (previewData sel s)).
Proof.
  induction sel as [|r sel IH] using rev_ind; [apply NoDup_nil_2|].
  rewrite previewData_snoc, previewStep_entry.
  destruct (entryFor s r) as [[i e]|]; [|done]. by apply keys_set_NoDup.
Qed.

Lemma fold_set_fmap {A B : Type} (f : A → B) (m : list (string * A)) :
  NoDup (JsMap.keys m) →
  foldl (λ updates kv, JsMap.set kv.1 (f kv.2) updates) [] m
  = prod_map (λ k : string, k) f <$> m.
Proof.
  induction m as [|[k a] m IH] using rev_ind; [done|].
  unfold JsMap.keys. rewrite fmap_app. intros Hnd.
  apply NoDup_app in Hnd as (Hnd & Hdisj & _).
  rewrite foldl_app, fmap_app. simpl. rewrite IH by done.
  apply set_notin. unfold JsMap.keys. rewrite <-list_fmap_compose.
  intros Hin. apply list_elem_of_fmap in Hin as ([k' a'] & Hk & Hin).
  simpl in Hk. subst k'. apply (Hdisj k).
  - apply list_elem_of_fmap. by exists (k, a').
  - apply list_elem_of_here.
Qed.

(** The payload is the preview map with every entry replaced by its
    candidate label record. *)
Lemma handleApply_fmap sel s :
  handleApply sel s
  = prod_map (λ k : string, k) new <$> previewData sel s.
Proof. apply fold_set_fmap, previewData_keys_NoDup. Qed.

Lemma get_fmap {A B : Type} (f : A → B) (m : list (string * A)) i :
  JsMap.get i (prod_map (λ k : string, k) f <$> m) = f <$> JsMap.get i m.
Proof.
  induction m as [|[k a] m IH]; [done|]. csimpl.
  destruct (decide (i = k)); done.
Qed.

Lemma handleApply_get sel s i :
  JsMap.get i (handleApply sel s) = new <$> JsMap.get i (previewData sel s).
Proof. by rewrite handleApply_fmap, get_fmap. Qed.

Lemma get_omap_entryFor sel s r :
  NoDup (id <$> sel) → r ∈ sel →
  JsMap.get (id r) (omap (entryFor s) sel) = snd <$> entryFor s r.
Proof.
  induction sel as [|r0 sel IH]; intros Hnd Hin.
  - by apply not_elem_of_nil in Hin.
  - rewrite fmap_cons in Hnd. apply NoDup_cons in Hnd as [Hr0 Hnd].
    csimpl. apply elem_of_cons in Hin as [->|Hin].
    + destruct (entryFor s r0) as [[i e]|] eqn:He; csimpl.
      * apply entryFor_id in He as ->. by rewrite decide_True.
      * apply get_None. unfold JsMap.keys. intros Hk.
        apply list_elem_of_fmap in Hk as ([i' e'] & Hi & Hk).
        apply list_elem_of_omap in Hk as (r' & Hr' & He').
        apply entryFor_id in He'. simpl in Hi. subst.
        apply Hr0. apply list_elem_of_fmap. eauto.
    + assert (id r ≠ id r0) as Hne.
      { intros Heq. apply Hr0. rewrite <-Heq.
        apply list_elem_of_fmap. eauto. }
      destruct (entryFor s r0) as [[i e]|] eqn:He; csimpl; [|by apply IH].
      apply entryFor_id in He as ->. rewrite decide_False by done.
      by apply IH.
Qed.

(** C2.  With pairwise different resource ids, a selected resource with
    an empty change list has no entry in the preview map nor in the
    payload, and the payload maps the id of every other selected
    resource to its complete candidate label record: the original
    labels with every applied rule written into them (STATIC, PATTERN,
    REGEX), or without the removed keys (CLEANUP). *)
Theorem zero_change_resources_excluded sel s :
  NoDup (id <$> sel) →
  JsMap.keys (handleApply sel s) = JsMap.keys (previewData sel s)
  ∧ (∀ r, r ∈ sel → changesOf s r = [] →
       JsMap.get (id r) (previewData sel s) = None
       ∧ JsMap.get (id r) (handleApply sel s) = None
       ∧ id r ∉ JsMap.keys (handleApply sel s))
  ∧ (∀ r, r ∈ sel → changesOf s r ≠ [] →
       JsMap.get (id r) (handleApply sel s) = Some (candidate s r)
       ∧ candidate s r
         = if decide (mode s = CLEANUP)
           then withoutListedNonEmpty (labels r) (keysToRemove s)
           else applyAll (labels r) (appliedRules s r)).
Proof.
  intros Hnd. split_and!.
  - rewrite handleApply_fmap. unfold JsMap.keys.
    rewrite <-list_fmap_compose. apply list_fmap_ext. by intros _ [k e] _.
  - intros r Hin Hch.
    assert (JsMap.get (id r) (previewData sel s) = None) as Hg.
    { rewrite previewData_NoDup, get_omap_entryFor by done.
      apply entryFor_None in Hch. by rewrite Hch. }
    assert (JsMap.get (id r) (handleApply sel s) = None) as Hg'.
    { by rewrite handleApply_get, Hg. }
    split_and!; [done | done | by apply get_None].
  - intros r Hin Hch. split.
    + rewrite handleApply_get, previewData_NoDup, get_omap_entryFor by done.
      by rewrite entryFor_Some.
    + case_decide as Hm; [by apply candidate_cleanup|].
      by apply candidate_rules.
Qed.

Lemma evalResource_no_regex s r :
  mode s = REGEX → evalResource s None r = (labels r, []).
Proof. intros Hm. unfold evalResource. by rewrite Hm. Qed.

(** C3.  When the mode is REGEX and the expression does not compile, no
    selected resource gets a change: the body leaves every candidate
    equal to the original labels with an empty change list, the preview
    map is empty and so is the payload.  The computation is a total
    function, the failure of the constructor being absorbed as the
    [null] expression. *)
Theorem invalid_regex_disables_batch sel s :
  mode s = REGEX →
  newRegExp (regexPattern s) = None →
  (∀ r, candidate s r = labels r ∧ changesOf s r = [])
  ∧ previewData sel s = []
  ∧ handleApply sel s = [].
Proof.
  intros Hm Hre.
  assert (compiledRegex s = None) as Hc.
  { unfold compiledRegex. by rewrite Hm. }
  assert (∀ r, evalResource s (compiledRegex s) r = (labels r, [])) as He.
  { intros r. rewrite Hc. by apply evalResource_no_regex. }
  assert (previewData sel s = []) as Hp.
  { induction sel as [|r sel IH] using rev_ind; [done|].
    rewrite previewData_snoc, IH. unfold previewStep. by rewrite He. }
  split_and!.
  - intros r. unfold candidate, changesOf. by rewrite He.
  - done.
  - unfold handleApply. by rewrite Hp.
Qed.

Lemma appliedRules_targeted s r k :
  k ∈ (appliedRules s r).*1 → k ∈ targetedKeys s.
Proof.
  unfold appliedRules, targetedKeys.
  assert (∀ {A} (rule : A → option (string * string)) (key : A → string)
            (l : list A),
            (∀ a kv, rule a = Some kv → kv.1 = key a) →
            k ∈ (omap rule l).*1 → k ∈ key <$> l) as Haux.
  { intros A rule key l Hrule Hin.
    apply list_elem_of_fmap in Hin as (kv & -> & Hin).
    apply list_elem_of_omap in Hin as (a & Ha & Hkv).
    apply list_elem_of_fmap. exists a. split; [|done]. by apply Hrule. }
  destruct (mode s).
  - apply Haux. intros [k' v'] kv. unfold staticRule. simpl.
    destruct (_ && _); [|done]. by intros [= <-].
  - apply Haux. intros [p k'] kv. unfold patternRule. simpl.
    destruct (Js.at_index _ p) as [part|]; [|done].
    destruct (_ && _); [|done]. by intros [= <-].
  - destruct (compiledRegex s) as [re|];
      [|intros Hin; by apply not_elem_of_nil in Hin].
    destruct (String_match (name r) re) as [m|];
      [|intros Hin; by apply not_elem_of_nil in Hin].
    apply Haux. intros [i k'] kv. unfold regexRule. simpl.
    destruct (Js.at_index m i) as [[text|]|]; [|done..].
    destruct (_ && _); [|done]. by intros [= <-].
  - intros Hin. by apply not_elem_of_nil in Hin.
Qed.

(** C10.  Outside CLEANUP the candidate of a resource has every key of
    its original label record, and a key that no rule of the strategy
    names keeps its original value (or absence); the same holds for the
    label record the payload stores under an id, with respect to the
    selected resource it was computed from. *)
Theorem additive_strategies_keep_labels sel s :
  mode s ≠ CLEANUP →
  (∀ r k, is_Some (labels r !! k) → is_Some (candidate s r !! k))
  ∧ (∀ r k, k ∉ targetedKeys s → candidate s r !! k = labels r !! k)
  ∧ (∀ i payload,
       JsMap.get i (handleApply sel s) = Some payload →
       ∃ r, r ∈ sel ∧ id r = i ∧ payload = candidate s r
            ∧ (∀ k, is_Some (labels r !! k) → is_Some (payload !! k))
            ∧ (∀ k, k ∉ targetedKeys s → payload !! k = labels r !! k)).
Proof.
  intros Hm.
  assert (∀ r k, is_Some (labels r !! k) → is_Some (candidate s r !! k))
    as Hkeep.
  { intros r k Hk. rewrite candidate_rules by done.
    by apply applyAll_is_Some. }
  assert (∀ r k, k ∉ targetedKeys s → candidate s r !! k = labels r !! k)
    as Hframe.
  { intros r k Hk. rewrite candidate_rules by done.
    apply applyAll_lookup_notin. intros Hin. apply Hk.
    by apply (appliedRules_targeted s r). }
  split_and!; [done | done |].
  intros i payload. rewrite handleApply_get.
  destruct (JsMap.get i (previewData sel s)) as [e|] eqn:Hg; [|done].
  intros [= <-]. apply previewData_get in Hg as (r & Hr & He).
  pose proof (entryFor_id _ _ _ _ He) as ->.
  assert (new e = candidate s r) as ->.
  { unfold entryFor in He. destruct (changesOf s r); [done|].
    by injection He as <-. }
  exists r. split_and!; auto.
Qed.
End PreviewMap.

Lemma zero_change_resources_excluded_witness :
  let s := withStatic [("env", "prod")] in
  let sel := [mkResource "r1" "vm-1" [("env", "prod")];
              mkResource "r2" "vm-2" [("team", "core")]] in
  NoDup (id <$> sel)
  ∧ JsMap.keys (handleApply sel s) = ["r2"]
  ∧ JsMap.get "r1" (handleApply sel s) = None
  ∧ JsMap.get "r2" (handleApply sel s)
    = Some {[ "env" := "prod"; "team" := "core" ]}.
Proof.
  intros s sel.
  assert (NoDup (id <$> sel)) as Hnd.
  { apply (bool_decide_unpack _). vm_compute. exact I. }
  destruct (zero_change_resources_excluded sel s Hnd) as (_ & Hzero & Hsome).
  split_and!; [done | reflexivity | |].
  - apply (Hzero (mkResource "r1" "vm-1" [("env", "prod")]));
      [apply list_elem_of_here | reflexivity].
  - destruct (Hsome (mkResource "r2" "vm-2" [("team", "core")])) as [Hg _];
      [apply list_elem_of_further, list_elem_of_here | done |].
    exact Hg.
Defined.

Lemma invalid_regex_disables_batch_witness :
  let s := withRegex "([a-z]+" [(1%Z, "env")] in
  let sel := [mkResource "r1" "prod-web-1" []; mkResource "r2" "dev" []] in
  mode s = REGEX
  ∧ newRegExp (regexPattern s) = None
  ∧ previewData sel s = []
  ∧ handleApply sel s = [].
Proof.
  intros s sel.
  assert (mode s = REGEX) as Hm by done.
  assert (newRegExp (regexPattern s) = None) as Hre by reflexivity.
  destruct (invalid_regex_disables_batch sel s Hm Hre) as (_ & Hp & Ha).
  by split_and!.
Defined.

Lemma additive_strategies_keep_labels_witness :
  let s := withPattern "-" [(0%Z, "env"); (1%Z, "app")] in
  let r := mkResource "r1" "prod-web-42" [("team", "core"); ("env", "dev")] in
  mode s ≠ CLEANUP
  ∧ ("team" ∉ targetedKeys s)
  ∧ candidate s r !! "team" = Some "core"
  ∧ is_Some (candidate s r !! "env").
Proof.
  intros s r.
  assert (mode s ≠ CLEANUP) as Hm by done.
  assert ("team" ∉ targetedKeys s) as Ht.
  { apply (bool_decide_unpack _). vm_compute. exact I. }
  destruct (additive_strategies_keep_labels [r] s Hm) as (Hkeep & Hframe & _).
  split_and!; [done | done | |].
  - rewrite (Hframe r "team" Ht). reflexivity.
  - apply Hkeep. by eexists.
Defined.

(** ** PATTERN and REGEX (C5, C4) *)

Lemma applyAll_omap_last {A : Type} (rule : A → option (string * string))
    (key : A → string) l1 a l2 k v m :
  (∀ a' kv, rule a' = Some kv → kv.1 = key a') →
  rule a = Some (k, v) →
  k ∉ key <$> l2 →
  applyAll m (omap rule (l1 ++ a :: l2)) !! k = Some v.
Proof.
  intros Hkey Ha Hnin. rewrite omap_app. csimpl. rewrite Ha.
  apply applyAll_lookup_last. intros Hin. apply Hnin.
  apply list_elem_of_fmap in Hin as (kv & -> & Hin).
  apply list_elem_of_omap in Hin as (a' & Ha' & Hkv).
  apply list_elem_of_fmap. exists a'. split; [|done]. by apply Hkey.
Qed.


Lemma patternRule_key parts m kv : patternRule parts m = Some kv → kv.1 = m.2.
Proof.
  unfold patternRule. destruct (Js.at_index parts m.1) as [part|]; [|done].
  destruct (_ && _); [|done]. by intros [= <-].
Qed.


Section Extraction.
Context `{RegExpEngine}.


End Extraction.





(** ** The apply gate (C7) *)

Section GateFacts.
Context `{Validator}.

Lemma existsb_elem_of {A : Type} (f : A → bool) (l : list A) :
  existsb f l = true ↔ ∃ a, a ∈ l ∧ f a = true.
Proof.
  rewrite existsb_exists. split; intros (a & Ha & Hf); exists a;
    (split; [by apply list_elem_of_In | done]).
Qed.

Lemma validRows_nonempty rows :
  (0 <? length (validRows rows)) = true
  ↔ ∃ l, l ∈ rows ∧ l.1 ≠ ""
         ∧ ¬ reportsError (validateKey l.1)
         ∧ ¬ reportsError (validateValue l.2).
Proof.
  unfold validRows, reportsError. rewrite Nat.ltb_lt. split.
  - intros Hlen.
    destruct (List.filter _ rows) as [|l rest] eqn:Hf; [simpl in Hlen; lia|].
    assert (In l (List.filter
                    (λ l : string * string,
                       Js.truthy l.1
                       && negb (Js.truthy_opt (validateKey l.1))
                       && negb (Js.truthy_opt (validateValue l.2))) rows))
      as Hin by (rewrite Hf; by left).
    apply filter_In in Hin as [Hin Hok].
    apply andb_true_iff in Hok as [Hok Hv].
    apply andb_true_iff in Hok as [Hk Hkv].
    exists l. split_and!.
    + by apply list_elem_of_In.
    + by apply truthy_nonempty.
    + apply negb_true_iff in Hkv. by rewrite Hkv.
    + apply negb_true_iff in Hv. by rewrite Hv.
  - intros (l & Hin & Hk & Hkv & Hv).
    assert (In l (List.filter
                    (λ l : string * string,
                       Js.truthy l.1
                       && negb (Js.truthy_opt (validateKey l.1))
                       && negb (Js.truthy_opt (validateValue l.2))) rows))
      as Hf.
    { apply filter_In. split; [by apply list_elem_of_In|].
      apply truthy_nonempty in Hk. rewrite Hk. simpl.
      apply not_true_is_false in Hkv, Hv. by rewrite Hkv, Hv. }
    destruct (List.filter _ rows); [done | simpl; lia].
Qed.

Lemma hasErrors_false rows :
  hasErrors rows = false
  ↔ ∀ l, l ∈ rows → l.1 ≠ "" ∨ l.2 ≠ "" →
         ¬ reportsError (validateKey l.1)
         ∧ ¬ reportsError (validateValue l.2).
Proof.
  unfold hasErrors, staticLabelErrors, reportsError.
  induction rows as [|l rows IH]; csimpl.
  - split; [|done]. intros _ l Hl. by apply not_elem_of_nil in Hl.
  - rewrite orb_false_iff, IH. clear IH. split.
    + intros [Hl Hrest] l' Hin Hne.
      apply elem_of_cons in Hin as [->|Hin]; [|by apply Hrest].
      destruct (Js.truthy l.1) eqn:Hk; simpl in Hl.
      * apply orb_false_iff in Hl as [-> ->]. done.
      * destruct (Js.truthy l.2) eqn:Hv; simpl in Hl.
        -- apply orb_false_iff in Hl as [-> ->]. done.
        -- apply truthy_empty in Hk, Hv. naive_solver.
    + intros Hall. split.
      * destruct (negb (Js.truthy l.1) && negb (Js.truthy l.2)) eqn:Hrow;
          [done|]. simpl.
        destruct (Hall l) as [Hk Hv]; [apply list_elem_of_here | |].
        -- apply andb_false_iff in Hrow as [Hrow|Hrow];
             apply negb_false_iff, truthy_nonempty in Hrow; auto.
        -- apply not_true_is_false in Hk, Hv. by rewrite Hk, Hv.
      * intros l' Hin. apply Hall. by apply list_elem_of_further.
Qed.

(** C7 (amended).  The gate holds exactly when: for STATIC, some row has a
    non-empty key that the validator accepts together with a value that it
    accepts, and no row that is not completely empty (a non-empty key or a
    non-empty value) has a validation error; for PATTERN and REGEX, some
    mapping has a non-empty key; for CLEANUP, some listed key is
    non-empty. *)
Theorem apply_gate s :
  isValid s = true ↔
  match mode s with
  | STATIC =>
      (∃ l, l ∈ staticLabels s ∧ l.1 ≠ ""
            ∧ ¬ reportsError (validateKey l.1)
            ∧ ¬ reportsError (validateValue l.2))
      ∧ (∀ l, l ∈ staticLabels s → l.1 ≠ "" ∨ l.2 ≠ "" →
              ¬ reportsError (validateKey l.1)
              ∧ ¬ reportsError (validateValue l.2))
  | PATTERN => ∃ m, m ∈ mappings s ∧ m.2 ≠ ""
  | REGEX => ∃ g, g ∈ regexGroups s ∧ g.2 ≠ ""
  | CLEANUP => ∃ k, k ∈ keysToRemove s ∧ k ≠ ""
  end.
Proof.
  unfold isValid. destruct (mode s).
  - rewrite andb_true_iff, negb_true_iff, validRows_nonempty, hasErrors_false.
    done.
  - rewrite existsb_elem_of. by setoid_rewrite truthy_nonempty.
  - rewrite existsb_elem_of. by setoid_rewrite truthy_nonempty.
  - rewrite existsb_elem_of. by setoid_rewrite truthy_nonempty.
Qed.
End GateFacts.

(** C7 as stated fails on a row with an empty key and a value: its errors
    block the gate, although the row has no key. *)
Lemma apply_gate_counterexample :
  let s := withStatic [("env", "prod"); ("", "Bad Value")] in
  staticLabelErrors (staticLabels s)
  = [ {| key_error := None; value_error := None |};
      {| key_error := Some "Key is required";
         value_error := Some "Value has invalid characters" |} ]
  ∧ isValid s = false
  ∧ gateAsSpecified s = true.
Proof. cbv zeta. split_and!; reflexivity. Qed.

(** ** Grouping and pagination (C8) *)

Lemma members_app gl g l1 l2 :
  members gl g (l1 ++ l2) = members gl g l1 ++ members gl g l2.
Proof. unfold members. apply List.filter_app. Qed.

Lemma members_nonempty gl g l :
  members gl g l ≠ [] ↔ ∃ r, r ∈ l ∧ groupValue gl r = g.
Proof.
  unfold members. split.
  - intros Hne. destruct (List.filter _ l) as [|r rest] eqn:Hf; [done|].
    assert (In r (List.filter
                    (λ r, bool_decide (groupValue gl r = g)) l)) as Hin
      by (rewrite Hf; by left).
    apply filter_In in Hin as [Hin Hg]. exists r. split.
    + by apply list_elem_of_In.
    + by apply bool_decide_eq_true in Hg.
  - intros (r & Hin & Hg) Hnil.
    assert (In r (List.filter
                    (λ r, bool_decide (groupValue gl r = g)) l)) as Hf.
    { apply filter_In. split; [by apply list_elem_of_In|].
      by apply bool_decide_eq_true. }
    by rewrite Hnil in Hf.
Qed.

Lemma groupStep_get gl G r g :
  JsMap.get g (groupStep gl G r)
  = if decide (g = groupValue gl r)
    then Some (default [] (JsMap.get g G) ++ [r])
    else JsMap.get g G.
Proof.
  unfold groupStep, JsMap.has.
  destruct (JsMap.get (groupValue gl r) G) as [bucket|] eqn:Hb.
  - rewrite bool_decide_eq_true_2 by eauto. rewrite Hb.
    case_decide as Hg.
    + subst g. by rewrite get_set_eq, Hb.
    + rewrite get_set_ne; [done | congruence].
  - rewrite bool_decide_eq_false_2 by (by intros [? ?]).
    rewrite get_set_eq. case_decide as Hg.
    + subst g. by rewrite get_set_eq, Hb.
    + rewrite !get_set_ne; [done | congruence | congruence].
Qed.

Lemma groupStep_keys_NoDup gl G r :
  NoDup (JsMap.keys G) → NoDup (JsMap.keys (groupStep gl G r)).
Proof.
  intros Hnd. unfold groupStep.
  destruct (JsMap.has _ G).
  - destruct (JsMap.get _ G); [by apply keys_set_NoDup | done].
  - destruct (JsMap.get _ (JsMap.set _ _ G));
      [by apply keys_set_NoDup, keys_set_NoDup | by apply keys_set_NoDup].
Qed.

Lemma groupResources_snoc gl l r :
  groupResources gl (l ++ [r]) = groupStep gl (groupResources gl l) r.
Proof. unfold groupResources. by rewrite foldl_app. Qed.

Lemma groupResources_keys_NoDup gl l :
  NoDup (JsMap.keys (groupResources gl l)).
Proof.
  induction l as [|r l IH] using rev_ind; [apply NoDup_nil_2|].
  rewrite groupResources_snoc. by apply groupStep_keys_NoDup.
Qed.

(** The bucket of a group holds its members, in the order of the list. *)
Lemma groupResources_get gl l g :
  JsMap.get g (groupResources gl l)
  = match members gl g l with
    | [] => None
    | ms => Some ms
    end.
Proof.
  induction l as [|r l IH] using rev_ind; [done|].
  rewrite groupResources_snoc, groupStep_get, members_app, IH.
  assert (members gl g [r]
          = if bool_decide (groupValue gl r = g) then [r] else []) as ->
    by done.
  case_decide as Hg.
  - rewrite bool_decide_eq_true_2 by done.
    destruct (members gl g l) as [|r0 ms]; done.
  - rewrite bool_decide_eq_false_2 by done. by rewrite app_nil_r.
Qed.

Lemma groupResources_bucket gl l g :
  default [] (JsMap.get g (groupResources gl l)) = members gl g l.
Proof. rewrite groupResources_get. by destruct (members gl g l). Qed.

Lemma groupResources_keys gl l g :
  g ∈ JsMap.keys (groupResources gl l)
  ↔ ∃ r, r ∈ l ∧ groupValue gl r = g.
Proof.
  rewrite <-members_nonempty.
  destruct (decide (g ∈ JsMap.keys (groupResources gl l))) as [Hin|Hnin].
  - split; [|done]. intros _ Hnil.
    assert (JsMap.get g (groupResources gl l) = None) as Hn
      by (by rewrite groupResources_get, Hnil).
    by apply get_None in Hn.
  - split; [done|]. intros Hne. exfalso. apply Hne.
    apply get_None in Hnin. rewrite groupResources_get in Hnin.
    by destruct (members gl g l).
Qed.

Lemma insertSorted_perm k ks : insertSorted k ks ≡ₚ k :: ks.
Proof.
  induction ks as [|k' ks IH]; simpl; [done|].
  destruct (String.ltb k k'); [done|]. rewrite IH. apply Permutation_swap.
Qed.

Lemma sortKeys_perm ks : sortKeys ks ≡ₚ ks.
Proof.
  unfold sortKeys. induction ks as [|k ks IH] using rev_ind; [done|].
  rewrite foldl_app. simpl. rewrite insertSorted_perm, IH.
  by rewrite Permutation_cons_append.
Qed.

Lemma flatten_blocks G C ks acc :
  foldl (flattenStep G C) acc ks
  = acc ++ concat ((λ k, flattenStep G C [] k) <$> ks).
Proof.
  revert acc. induction ks as [|k ks IH]; intros acc; csimpl.
  - by rewrite app_nil_r.
  - rewrite IH. rewrite app_assoc. f_equal.
    unfold flattenStep. destruct (bool_decide (k ∈ C)); simpl;
      by rewrite <-?app_assoc.
Qed.

Lemma displayItems_blocks l gl C :
  gl ≠ "" →
  displayItems l gl C = concat (groupBlock gl l C <$> groupKeys gl l).
Proof.
  intros Hgl. unfold displayItems, groupKeys.
  apply truthy_nonempty in Hgl. rewrite Hgl. simpl.
  rewrite flatten_blocks. simpl. f_equal. apply list_fmap_ext.
  intros _ k _. unfold flattenStep, groupBlock.
  rewrite groupResources_bucket. by destruct (bool_decide (k ∈ C)).
Qed.

Lemma groupKeys_NoDup gl l : NoDup (groupKeys gl l).
Proof.
  unfold groupKeys. rewrite sortKeys_perm. apply groupResources_keys_NoDup.
Qed.

Lemma groupKeys_elem gl l g :
  g ∈ groupKeys gl l ↔ ∃ r, r ∈ l ∧ groupValue gl r = g.
Proof.
  unfold groupKeys. rewrite sortKeys_perm. apply groupResources_keys.
Qed.

Lemma slice_take_drop {A : Type} (arr : list A) (start end_ : Z) :
  (0 ≤ start ≤ end_)%Z →
  slice arr start end_
  = take (Z.to_nat (end_ - start)) (drop (Z.to_nat start) arr).
Proof.
  intros Hse. unfold slice.
  rewrite !bool_decide_eq_false_2 by lia.
  destruct (decide (start ≤ Z.of_nat (length arr))%Z) as [Hle|Hgt].
  - rewrite (Z.min_l start) by lia.
    destruct (decide (end_ ≤ Z.of_nat (length arr))%Z) as [Hle'|Hgt'].
    + by rewrite (Z.min_l end_) by lia.
    + rewrite (Z.min_r end_) by lia.
      rewrite !take_ge; [done | |]; rewrite length_drop; lia.
  - rewrite (Z.min_r start), (Z.min_r end_) by lia.
    rewrite Z.sub_diag. simpl.
    rewrite (drop_ge arr (Z.to_nat start)) by lia. by rewrite take_nil.
Qed.

Lemma paginated_take_drop items (p : nat) (ipp : Z) :
  1 ≤ p → (0 < ipp)%Z →
  paginatedDisplayItems items (Z.of_nat p) ipp
  = take (Z.to_nat ipp) (drop ((p - 1) * Z.to_nat ipp) items).
Proof.
  intros Hp Hipp. unfold paginatedDisplayItems, startIndex.
  rewrite slice_take_drop by nia. f_equal; [f_equal; lia|].
  f_equal. nia.
Qed.

Lemma concat_pages {A : Type} (l : list A) (n k : nat) :
  concat ((λ i, take n (drop (i * n) l)) <$> seq 0 k) = take (k * n) l.
Proof.
  induction k as [|k IH]; [done|].
  rewrite seq_S, fmap_app, concat_app, IH. simpl. rewrite app_nil_r.
  rewrite take_take_drop. f_equal. lia.
Qed.

Lemma pagesUpTo_take items (n : nat) (ipp : Z) :
  (0 < ipp)%Z → pagesUpTo items n ipp = take (n * Z.to_nat ipp) items.
Proof.
  intros Hipp. unfold pagesUpTo. rewrite <-concat_pages. f_equal.
  rewrite <-fmap_S_seq, <-list_fmap_compose. apply list_fmap_ext.
  intros _ i _. simpl. rewrite paginated_take_drop by lia.
  do 2 f_equal. lia.
Qed.

Lemma totalPages_bounds (n ipp : Z) :
  (0 ≤ n)%Z → (0 < ipp)%Z →
  (0 ≤ totalPages n ipp)%Z
  ∧ (n ≤ totalPages n ipp * ipp)%Z
  ∧ ((totalPages n ipp - 1) * ipp < n ∨ n = 0 ∧ totalPages n ipp = 0)%Z.
Proof.
  intros Hn Hipp. unfold totalPages.
  pose proof (Z.div_mod (n + ipp - 1) ipp ltac:(lia)) as Hdm.
  pose proof (Z.mod_pos_bound (n + ipp - 1) ipp Hipp) as Hmod.
  split_and!; [apply Z.div_pos; lia | nia |].
  destruct (decide (n = 0%Z)) as [->|Hne]; [|left; nia].
  right. split; [done|]. apply Z.div_small. lia.
Qed.

(** C8 (amended).  With a grouping key, the display sequence is the
    sequence of the group blocks, one per group value of the filtered
    resources; the block of a collapsed group is its header alone, the
    block of an expanded group is its header followed by all its members
    in the filtered order.  The page count is that of this flattened
    sequence, and the pages, one after the other, are this sequence.  The
    page effect resets the current page to 1 whenever it exceeds a page
    count that is positive, and leaves it as it is otherwise; when there
    is no display row at all the page count is 0 and the page is not
    reset. *)
Theorem grouped_display_and_pages filtered groupByLabel collapsed ipp :
  groupByLabel ≠ "" →
  (0 < ipp)%Z →
  let items := displayItems filtered groupByLabel collapsed in
  let pages := totalPages (Z.of_nat (length items)) ipp in
  items = concat (groupBlock groupByLabel filtered collapsed
                    <$> groupKeys groupByLabel filtered)
  ∧ NoDup (groupKeys groupByLabel filtered)
  ∧ (∀ g, g ∈ groupKeys groupByLabel filtered
          ↔ ∃ r, r ∈ filtered ∧ groupValue groupByLabel r = g)
  ∧ (∀ g, let ms := members groupByLabel g filtered in
          groupBlock groupByLabel filtered collapsed g
          = if decide (g ∈ collapsed)
            then [header g g (length ms) true]
            else header g g (length ms) false :: (resource <$> ms))
  ∧ (0 ≤ pages)%Z
  ∧ (Z.of_nat (length items) ≤ pages * ipp)%Z
  ∧ ((pages - 1) * ipp < Z.of_nat (length items)
     ∨ items = [] ∧ pages = 0)%Z
  ∧ pagesUpTo items (Z.to_nat pages) ipp = items
  ∧ (∀ cur, (cur > pages)%Z → (pages > 0)%Z → pageEffect cur pages = 1%Z)
  ∧ (∀ cur, (cur ≤ pages)%Z ∨ pages = 0%Z → pageEffect cur pages = cur).
Proof.
  intros Hgl Hipp items pages.
  pose proof (totalPages_bounds (Z.of_nat (length items)) ipp
                ltac:(lia) Hipp) as (Hp0 & Hup & Hlow).
  fold pages in Hp0, Hup, Hlow.
  split_and!.
  - by apply displayItems_blocks.
  - apply groupKeys_NoDup.
  - apply groupKeys_elem.
  - intros g ms. unfold groupBlock. fold ms.
    case_decide as Hc.
    + by rewrite bool_decide_eq_true_2.
    + by rewrite bool_decide_eq_false_2.
  - done.
  - done.
  - destruct Hlow as [Hlow|[Hlen Hz]]; [by left|right].
    split; [|done]. apply length_zero_iff_nil. lia.
  - rewrite pagesUpTo_take by done. apply take_ge. nia.
  - intros cur Hgt Hpos. unfold pageEffect.
    by rewrite !bool_decide_eq_true_2.
  - intros cur Hcur. unfold pageEffect.
    destruct Hcur as [Hle| ->].
    + rewrite (bool_decide_eq_false_2 (cur > pages)%Z) by lia. done.
    + rewrite (bool_decide_eq_false_2 (0 > 0)%Z) by lia.
      by rewrite andb_false_r.
Qed.

Lemma grouped_display_and_pages_witness :
  let filtered :=
    [mkResource "r1" "vm-1" [("env", "prod")];
     mkResource "r2" "vm-2" [];
     mkResource "r3" "vm-3" [("env", "dev")];
     mkResource "r4" "vm-4" [("env", "prod")];
     mkResource "r5" "vm-5" [("env", "")]] in
  let items := displayItems filtered "env" {[ "prod" ]} in
  "env" ≠ ""
  ∧ (0 < 2)%Z
  ∧ groupKeys "env" filtered = ["Unassigned"; "dev"; "prod"]
  ∧ (id <$> members "env" "Unassigned" filtered) = ["r2"; "r5"]
  ∧ length items = 6
  ∧ totalPages (Z.of_nat (length items)) 2 = 3%Z
  ∧ pagesUpTo items 3 2 = items
  ∧ pageEffect 4 (totalPages (Z.of_nat (length items)) 2) = 1%Z.
Proof.
  intros filtered items.
  assert ("env" ≠ "") as Hgl by done.
  assert (0 < 2)%Z as Hipp by lia.
  destruct (grouped_display_and_pages filtered "env" {[ "prod" ]} 2 Hgl Hipp)
    as (_ & _ & _ & _ & _ & _ & _ & Hpages & Hreset & _).
  split_and!; [done | done | reflexivity | reflexivity | reflexivity
              | reflexivity | exact Hpages |].
  apply Hreset; reflexivity.
Defined.

(** C8 as stated fails when no display row is left: the page count is 0,
    the current page exceeds it, and the effect leaves the page as it
    is. *)
Lemma page_reset_counterexample :
  let items := displayItems [] "env" ∅ in
  let pages := totalPages (Z.of_nat (length items)) 10 in
  items = []
  ∧ pages = 0%Z
  ∧ (3 > pages)%Z
  ∧ pageEffect 3 pages = 3%Z
  ∧ pageEffect 3 pages ≠ 1%Z.
Proof. cbv zeta. split_and!; try reflexivity. discriminate. Qed.

(** ** The preview over the object store (C9) *)

Section StoreFacts.
Context `{RegExpEngine}.
Implicit Types (h : gmap nat (gmap string string)) (m : gmap string string).

Lemma foldM_app {A S : Type} (f : S → A → Store.M S) acc l1 l2 h :
  Store.foldM f acc (l1 ++ l2) h
  = let '(acc', h') := Store.foldM f acc l1 h in Store.foldM f acc' l2 h'.
Proof.
  revert acc h. induction l1 as [|a l1 IH]; intros acc h; simpl; [done|].
  unfold Store.bind. destruct (f acc a h) as [acc' h']. apply IH.
Qed.

Lemma alter_inserted h o m (f : gmap string string → gmap string string) :
  alter f o (<[o := m]> h) = <[o := f m]> h.
Proof.
  apply map_eq. intros o'. destruct (decide (o = o')) as [->|Hne].
  - by rewrite lookup_alter_eq, !lookup_insert_eq.
  - by rewrite lookup_alter_ne, !lookup_insert_ne.
Qed.

Lemma foldM_simulates {A : Type} stepH (step : RuleState → A → RuleState)
    nl h :
  simulates stepH step nl h →
  ∀ l chs m,
    Store.foldM stepH chs l (<[nl := m]> h)
    = ((foldl step (m, chs) l).2, <[nl := (foldl step (m, chs) l).1]> h).
Proof.
  intros Hsim l. induction l as [|a l IH]; intros chs m; simpl; [done|].
  unfold Store.bind. rewrite Hsim, IH.
  by destruct (step (m, chs) a).
Qed.

Lemma processChange_run r nl h orig m chs key value :
  h !! Store.o_labels r = Some orig →
  h !! nl = None →
  Store.processChange r nl chs key value (<[nl := m]> h)
  = ((processChange orig (m, chs) key value).2,
     <[nl := (processChange orig (m, chs) key value).1]> h).
Proof.
  intros Hr Hnl.
  assert (nl ≠ Store.o_labels r) as Hne by congruence.
  unfold Store.processChange, Store.bind, Store.getProp, Store.setProp,
    Store.ret.
  rewrite lookup_insert_ne, Hr by done. simpl.
  by rewrite alter_inserted.
Qed.

Lemma cleanupStep_run nl h :
  simulates (Store.cleanupStep nl) cleanupStep nl h.
Proof.
  intros chs k m. unfold Store.cleanupStep, cleanupStep.
  destruct (Js.truthy k); [|done].
  unfold Store.bind, Store.getProp, Store.deleteProp, Store.ret.
  rewrite lookup_insert_eq. simpl.
  destruct (m !! k) as [old|]; [|done]. simpl.
  by rewrite alter_inserted.
Qed.

(** The body for one resource: a fresh object receives the candidate, and
    nothing else is written. *)
Lemma evalResource_run s regex r h orig :
  h !! Store.o_labels r = Some orig →
  Store.evalResource s regex r h
  = ((fresh (dom h), (evalResource s regex (Store.readResource h r)).2),
     <[fresh (dom h) := (evalResource s regex (Store.readResource h r)).1]>
       h).
Proof.
  intros Hr. set (nl := fresh (dom h)).
  assert (h !! nl = None) as Hnl.
  { apply not_elem_of_dom. apply is_fresh. }
  assert (∀ kv chs m,
            Store.processChange r nl chs kv.1 kv.2 (<[nl := m]> h)
            = ((processChange orig (m, chs) kv.1 kv.2).2,
               <[nl := (processChange orig (m, chs) kv.1 kv.2).1]> h))
    as Hpc.
  { intros kv chs m. by apply processChange_run. }
  unfold Store.evalResource, evalResource.
  unfold Store.bind at 1. unfold Store.spread. fold nl.
  unfold Store.readResource, Store.read. simpl. rewrite Hr. simpl.
  unfold Store.bind, Store.ret.
  destruct (mode s).
  - rewrite (foldM_simulates _ (staticStep orig)); [done|].
    intros chs [k v] m. unfold Store.staticStep, staticStep.
    destruct (_ && _); [|done]. apply (Hpc (k, v)).
  - rewrite (foldM_simulates _
               (patternStep orig (Js.split (Store.o_name r) (delimiter s))));
      [done|].
    intros chs [p k] m. unfold Store.patternStep, patternStep.
    destruct (Js.at_index _ p) as [part|]; [|done].
    destruct (_ && _); [|done]. apply (Hpc (k, part)).
  - destruct regex as [re|]; [|done].
    destruct (String_match (Store.o_name r) re) as [match_|]; [|done].
    rewrite (foldM_simulates _ (regexStep orig match_)); [done|].
    intros chs [i k] m. unfold Store.regexStep, regexStep.
    destruct (Js.at_index match_ i) as [[text|]|]; [|done..].
    destruct (_ && _); [|done]. apply (Hpc (k, text)).
  - rewrite (foldM_simulates _ cleanupStep); [done|].
    apply cleanupStep_run.
Qed.

Lemma fmap_set {A B : Type} (f : A → B) k (a : A) (m : list (string * A)) :
  prod_map (λ k : string, k) f <$> JsMap.set k a m
  = JsMap.set k (f a) (prod_map (λ k : string, k) f <$> m).
Proof.
  induction m as [|[k' a'] m IH]; [done|]. csimpl.
  destruct (decide (k = k')); csimpl; [done|]. by rewrite IH.
Qed.

Lemma elem_of_set {A : Type} k (a : A) k' a' (m : list (string * A)) :
  (k', a') ∈ JsMap.set k a m → (k', a') = (k, a) ∨ (k', a') ∈ m.
Proof.
  induction m as [|[k0 a0] m IH]; simpl.
  - intros Hin. apply list_elem_of_singleton in Hin. by left.
  - destruct (decide (k = k0)) as [->|Hne]; intros Hin;
      apply elem_of_cons in Hin as [Heq|Hin].
    + by left.
    + right. by apply list_elem_of_further.
    + right. rewrite Heq. apply list_elem_of_here.
    + destruct (IH Hin) as [?|?]; [by left|].
      right. by apply list_elem_of_further.
Qed.

Lemma read_weaken h h' o : h ⊆ h' → is_Some (h !! o) → Store.read h' o = Store.read h o.
Proof.
  intros Hsub [m Hm]. unfold Store.read.
  by rewrite (lookup_weaken _ _ _ _ Hm Hsub), Hm.
Qed.

Lemma readPreview_weaken h h' res :
  h ⊆ h' → allocated h res →
  Store.readPreview h' res = Store.readPreview h res.
Proof.
  intros Hsub Halloc. unfold Store.readPreview.
  apply list_fmap_ext. intros i [k e] Hl.
  apply list_elem_of_lookup_2 in Hl. destruct (Halloc k e Hl) as [Ho Hn].
  unfold prod_map, Store.readEntry. simpl.
  by rewrite !(read_weaken h h').
Qed.

(** One run over the store: every object that existed before is
    unchanged, and the preview read back from the final store is the
    preview computed from the label records read at the start. *)
Lemma previewData_run sel s h :
  (∀ r, r ∈ sel → is_Some (h !! Store.o_labels r)) →
  ∃ res h',
    Store.previewData sel s h = (res, h')
    ∧ h ⊆ h'
    ∧ allocated h' res
    ∧ Store.readPreview h' res
      = previewData (Store.readResource h <$> sel) s.
Proof.
  induction sel as [|r sel IH] using rev_ind; intros Hsel.
  - exists [], h. split_and!; [done | done | | done].
    intros k e Hin. by apply not_elem_of_nil in Hin.
  - destruct IH as (res & h' & Hrun & Hsub & Halloc & Hread).
    { intros r' Hr'. apply Hsel, elem_of_app. by left. }
    destruct (Hsel r) as [orig Horig].
    { apply elem_of_app. right. apply list_elem_of_here. }
    pose proof (lookup_weaken _ _ _ _ Horig Hsub) as Horig'.
    assert (Store.readResource h' r = Store.readResource h r) as Hrr.
    { unfold Store.readResource. f_equal. apply read_weaken; by eauto. }
    unfold Store.previewData in *. rewrite foldM_app, Hrun. simpl.
    unfold Store.bind, Store.previewStep.
    unfold Store.bind. rewrite (evalResource_run _ _ _ _ orig Horig').
    rewrite Hrr. simpl. unfold Store.ret.
    set (nl := fresh (dom h')).
    assert (h' !! nl = None) as Hnl.
    { apply not_elem_of_dom. apply is_fresh. }
    set (st := evalResource s (compiledRegex s) (Store.readResource h r)).
    set (h'' := <[nl := st.1]> h').
    assert (h' ⊆ h'') as Hsub' by (by apply insert_subseteq).
    eexists _, h''. split; [reflexivity|].
    assert (∀ o, is_Some (h' !! o) → is_Some (h'' !! o)) as Hmono.
    { intros o [m Hm]. exists m. by apply (lookup_weaken h'). }
    rewrite fmap_app.
    change (Store.readResource h <$> [r]) with [Store.readResource h r].
    rewrite previewData_snoc.
    unfold previewStep. fold st. rewrite <-Hread.
    rewrite <-(readPreview_weaken h' h'') by done.
    split_and!.
    + by etrans.
    + destruct st as [newLabels [|c chs]]; simpl.
      * intros k e Hin. destruct (Halloc k e Hin). split; by apply Hmono.
      * intros k e Hin. apply elem_of_set in Hin as [[= -> ->]|Hin].
        -- simpl. split; [by apply Hmono; eauto|].
           unfold h''. rewrite lookup_insert_eq. by eauto.
        -- destruct (Halloc k e Hin). split; by apply Hmono.
    + destruct st as [newLabels [|c chs]] eqn:Hst; simpl; [done|].
      unfold Store.readPreview. rewrite fmap_set. f_equal.
      unfold Store.readEntry, Store.read. simpl.
      unfold h''. rewrite lookup_insert_eq, lookup_insert_ne by congruence.
      rewrite Horig'. simpl. by rewrite Horig.
Qed.

(** C9.  The preview is a function of the values it is given and writes
    to no object that existed before the run: two runs on stores in which
    the selected resources read the same (ids, names and label records),
    with the same mode and parameters, yield previews that read the same
    (ids, original and candidate label records, change lists), namely the
    preview computed on these values; and in each run every object of the
    initial store, the label records of the selected resources among
    them, is left as it was. *)
Theorem preview_is_pure sel s h1 h2 :
  (∀ r, r ∈ sel → is_Some (h1 !! Store.o_labels r)) →
  (∀ r, r ∈ sel → is_Some (h2 !! Store.o_labels r)) →
  Store.readResource h1 <$> sel = Store.readResource h2 <$> sel →
  Store.readPreview (Store.previewData sel s h1).2
    (Store.previewData sel s h1).1
  = Store.readPreview (Store.previewData sel s h2).2
      (Store.previewData sel s h2).1
  ∧ Store.readPreview (Store.previewData sel s h1).2
      (Store.previewData sel s h1).1
    = previewData (Store.readResource h1 <$> sel) s
  ∧ (∀ o, is_Some (h1 !! o) → (Store.previewData sel s h1).2 !! o = h1 !! o)
  ∧ (∀ o, is_Some (h2 !! o) → (Store.previewData sel s h2).2 !! o = h2 !! o)
  ∧ (∀ r, r ∈ sel →
          Store.readResource (Store.previewData sel s h1).2 r
          = Store.readResource h1 r).
Proof.
  intros Hsel1 Hsel2 Hsame.
  destruct (previewData_run sel s h1 Hsel1)
    as (res1 & h1' & Hrun1 & Hsub1 & _ & Hread1).
  destruct (previewData_run sel s h2 Hsel2)
    as (res2 & h2' & Hrun2 & Hsub2 & _ & Hread2).
  rewrite Hrun1, Hrun2. simpl. split_and!.
  - by rewrite Hread1, Hread2, Hsame.
  - done.
  - intros o [m Hm]. by rewrite (lookup_weaken _ _ _ _ Hm Hsub1).
  - intros o [m Hm]. by rewrite (lookup_weaken _ _ _ _ Hm Hsub2).
  - intros r Hr. unfold Store.readResource. f_equal.
    apply read_weaken; [done | by apply Hsel1].
Qed.
End StoreFacts.

Lemma preview_is_pure_witness :
  let s := withPattern "-" [(0%Z, "env"); (1%Z, "app")] in
  (∀ r, r ∈ [objR1] → is_Some (storeA !! Store.o_labels r))
  ∧ (∀ r, r ∈ [objR1] → is_Some (storeB !! Store.o_labels r))
  ∧ Store.readResource storeA <$> [objR1]
    = Store.readResource storeB <$> [objR1]
  ∧ Store.readPreview (Store.previewData [objR1] s storeA).2
      (Store.previewData [objR1] s storeA).1
    = Store.readPreview (Store.previewData [objR1] s storeB).2
        (Store.previewData [objR1] s storeB).1
  ∧ Store.readPreview (Store.previewData [objR1] s storeA).2
      (Store.previewData [objR1] s storeA).1
    = [("r1",
        {| original := {[ "env" := "dev"; "team" := "core" ]};
           new := {[ "env" := "prod"; "team" := "core"; "app" := "web" ]};
           changes := [UPDATE "env" "dev" "prod"; ADD "app" "web"] |})]
  ∧ (Store.previewData [objR1] s storeA).2 !! 0 = storeA !! 0
  ∧ (Store.previewData [objR1] s storeB).2 !! 3 = storeB !! 3.
Proof.
  intros s.
  assert (∀ r, r ∈ [objR1] → is_Some (storeA !! Store.o_labels r)) as HA.
  { intros r Hr. apply list_elem_of_singleton in Hr as ->. by eexists. }
  assert (∀ r, r ∈ [objR1] → is_Some (storeB !! Store.o_labels r)) as HB.
  { intros r Hr. apply list_elem_of_singleton in Hr as ->. by eexists. }
  assert (Store.readResource storeA <$> [objR1]
          = Store.readResource storeB <$> [objR1]) as Hsame by reflexivity.
  destruct (preview_is_pure [objR1] s storeA storeB HA HB Hsame)
    as (Heq & Hpure & HfA & HfB & _).
  split_and!; [exact HA | exact HB | exact Hsame | exact Heq | |
               apply HfA; by eexists | apply HfB; by eexists].
  rewrite Hpure. vm_compute. reflexivity.
Defined.

Lemma apply_gate_witness :
  isValid (withStatic [("env", "prod"); ("", "")]) = true
  ∧ isValid (withStatic [("env", "prod"); ("", "x")]) = false
  ∧ isValid (withPattern "-" [(0%Z, ""); (1%Z, "app")]) = true
  ∧ isValid (withCleanup [""]) = false.
Proof.
  split_and!.
  - apply apply_gate. simpl. split.
    + exists ("env", "prod"). split_and!; try done. apply list_elem_of_here.
    + intros l Hl Hne. set_unfold in Hl.
      destruct Hl as [->|[->|[]]]; [done|].
      simpl in Hne. by destruct Hne.
  - apply not_true_is_false. intros Hv. apply apply_gate in Hv.
    simpl in Hv. destruct Hv as [_ Hall].
    destruct (Hall ("", "x")) as [Hk _]; [set_solver | by right |].
    by apply Hk.
  - apply apply_gate. simpl. exists (1%Z, "app"). split; [set_solver|done].
  - apply not_true_is_false. intros Hv. apply apply_gate in Hv.
    simpl in Hv. destruct Hv as (k & Hk & Hne). set_unfold in Hk.
    by destruct Hk as [->|[]].
Defined.

(** * More properties of the two components *)

(** ** Change lists as deltas *)

Lemma applyAll_lookup_cases m rules k v :
  applyAll m rules !! k = Some v → m !! k = Some v ∨ (k, v) ∈ rules.
Proof.
  induction rules as [|[k' v'] rules IH] using rev_ind; [by left|].
  rewrite applyAll_snoc. simpl. destruct (decide (k' = k)) as [->|Hne].
  - rewrite lookup_insert_eq. intros [= ->]. right.
    apply elem_of_app. right. apply list_elem_of_here.
  - rewrite lookup_insert_ne by done. intros Hl.
    destruct (IH Hl) as [?|?]; [by left|]. right. apply elem_of_app. by left.
Qed.


Lemma replay_rules orig rules :
  NoDup rules.*1 →
  foldl applyChange orig (omap (changeOf orig) rules) = applyAll orig rules.
Proof.
  induction rules as [|[k v] rules IH] using rev_ind; [done|].
  rewrite fmap_app. intros Hnd. apply NoDup_app in Hnd as (Hnd & Hdisj & _).
  assert (k ∉ rules.*1) as Hk.
  { intros Hin. apply (Hdisj k Hin). apply list_elem_of_here. }
  rewrite omap_app, foldl_app, IH, applyAll_snoc by done. csimpl.
  unfold changeOf. simpl. destruct (orig !! k) as [old|] eqn:Ho; [|done].
  case_decide as Hold; [|done]. subst old. simpl.
  symmetry. apply insert_id. by rewrite applyAll_lookup_notin.
Qed.

Lemma replay_cleanup ks m chs :
  ∃ new,
    (foldl cleanupStep (m, chs) ks).2 = chs ++ new
    ∧ foldl applyChange m new = (foldl cleanupStep (m, chs) ks).1.
Proof.
  revert m chs. induction ks as [|k ks IH]; intros m chs.
  - exists []. by rewrite app_nil_r.
  - cbn [foldl]. unfold cleanupStep at 2 4.
    destruct (Js.truthy k); [|apply IH].
    destruct (m !! k) as [old|]; [|apply IH].
    destruct (IH (delete k m) (chs ++ [DELETE k old])) as (new & Hnew & Hre).
    exists (DELETE k old :: new). by rewrite Hnew, <-app_assoc.
Qed.


Section Deltas.
Context `{RegExpEngine}.


(** X2.  The change list is a faithful delta: applying its records, in
    order, to the original labels gives the candidate, in CLEANUP mode
    always and in the other modes when the applied rules name pairwise
    different keys. *)
Theorem changes_replay s r :
  mode s = CLEANUP ∨ NoDup (appliedRules s r).*1 →
  foldl applyChange (labels r) (changesOf s r) = candidate s r.
Proof.
  intros Hcase. destruct (decide (mode s = CLEANUP)) as [Hm|Hm].
  - unfold changesOf, candidate. rewrite evalResource_cleanup by done.
    destruct (replay_cleanup (keysToRemove s) (labels r) [])
      as (new & Hnew & Hre).
    by rewrite Hnew.
  - destruct Hcase as [?|Hnd]; [done|].
    rewrite changesOf_rules, candidate_rules by done.
    by apply replay_rules.
Qed.


End Deltas.

Lemma changes_replay_witness :
  let s := withStatic [("env", "prod"); ("team", "core"); ("", "x")] in
  let r := mkResource "r1" "vm-1" [("env", "dev"); ("owner", "ops")] in
  NoDup (appliedRules s r).*1
  ∧ changesOf s r = [UPDATE "env" "dev" "prod"; ADD "team" "core"]
  ∧ foldl applyChange (labels r) (changesOf s r) = candidate s r.
Proof.
  intros s r.
  assert (NoDup (appliedRules s r).*1) as Hnd.
  { apply (bool_decide_unpack _). vm_compute. exact I. }
  split_and!; [exact Hnd | vm_compute; reflexivity |].
  apply changes_replay. by right.
Defined.


(** ** Rule order, the gate and blank rows *)

Lemma applyAll_perm m rules1 rules2 :
  rules1 ≡ₚ rules2 → NoDup rules1.*1 →
  applyAll m rules1 = applyAll m rules2.
Proof.
  intros Hp Hnd. assert (NoDup rules2.*1) as Hnd2 by (by rewrite <-Hp).
  apply map_eq. intros k.
  destruct (decide (k ∈ rules1.*1)) as [Hin|Hnin].
  - apply list_elem_of_fmap in Hin as ([k' v] & -> & Hin). simpl.
    rewrite (applyAll_lookup_NoDup _ _ _ v Hnd Hin).
    symmetry. apply applyAll_lookup_NoDup; [done|]. by rewrite <-Hp.
  - rewrite !applyAll_lookup_notin; [done | by rewrite <-Hp | done].
Qed.

Section Order.
Context `{RegExpEngine}.

(** X4.  For STATIC, PATTERN and REGEX the order of the rules does not
    matter when the applied rules name pairwise different keys: two
    parameter sets whose applied rules for a resource are permutations of
    each other give the same candidate, and change lists that are
    permutations of each other. *)
Theorem rule_order_irrelevant s1 s2 r :
  mode s1 ≠ CLEANUP → mode s2 ≠ CLEANUP →
  appliedRules s1 r ≡ₚ appliedRules s2 r →
  NoDup (appliedRules s1 r).*1 →
  candidate s1 r = candidate s2 r ∧ changesOf s1 r ≡ₚ changesOf s2 r.
Proof.
  intros Hm1 Hm2 Hp Hnd.
  rewrite !candidate_rules, !changesOf_rules by done. split.
  - by apply applyAll_perm.
  - by rewrite Hp.
Qed.

(** Reordering the mappings of PATTERN reorders its applied rules. *)
Lemma appliedRules_mappings_perm s r ms :
  mode s = PATTERN → ms ≡ₚ mappings s →
  appliedRules (setMappings ms s) r ≡ₚ appliedRules s r.
Proof.
  intros Hm Hp. unfold appliedRules. simpl. rewrite Hm. by rewrite Hp.
Qed.
End Order.

Lemma rule_order_irrelevant_witness :
  let s1 := withPattern "-" [(0%Z, "env"); (1%Z, "app")] in
  let s2 := withPattern "-" [(1%Z, "app"); (0%Z, "env")] in
  let r := mkResource "r1" "prod-web-42" [("env", "dev")] in
  NoDup (appliedRules s1 r).*1
  ∧ changesOf s1 r = [UPDATE "env" "dev" "prod"; ADD "app" "web"]
  ∧ changesOf s2 r = [ADD "app" "web"; UPDATE "env" "dev" "prod"]
  ∧ candidate s1 r = candidate s2 r.
Proof.
  intros s1 s2 r.
  assert (NoDup (appliedRules s1 r).*1) as Hnd.
  { apply (bool_decide_unpack _). vm_compute. exact I. }
  assert (appliedRules s1 r ≡ₚ appliedRules s2 r) as Hp.
  { change (appliedRules s1 r) with [("env", "prod"); ("app", "web")].
    change (appliedRules s2 r) with [("app", "web"); ("env", "prod")].
    apply Permutation_swap. }
  split_and!; [exact Hnd | vm_compute; reflexivity | vm_compute; reflexivity |].
  by destruct (rule_order_irrelevant s1 s2 r ltac:(done) ltac:(done) Hp Hnd).
Defined.

Section GateSafety.
Context `{RegExpEngine} `{Validator}.

Lemma staticRule_elem (rows : list (string * string)) kv :
  kv ∈ omap staticRule rows → kv ∈ rows ∧ kv.1 ≠ "" ∧ kv.2 ≠ "".
Proof.
  intros Hin. apply list_elem_of_omap in Hin as (row & Hrow & Hkv).
  unfold staticRule in Hkv.
  destruct (Js.truthy row.1 && Js.truthy row.2) eqn:Ht; [|done].
  injection Hkv as <-. apply andb_true_iff in Ht as [Hk Hv].
  by rewrite <-!truthy_nonempty.
Qed.

(** X5.  When the gate is open in STATIC mode, the validator has accepted
    every key and every value that the strategy writes: each applied rule
    passes [validateKey] and [validateValue], and every label of a payload
    entry is either a label the resource already had or one that passed
    validation. *)
Theorem static_gate_validates sel s :
  mode s = STATIC →
  isValid s = true →
  (∀ r k v, (k, v) ∈ appliedRules s r →
            ¬ reportsError (validateKey k)
            ∧ ¬ reportsError (validateValue v))
  ∧ (∀ i payload k v,
       JsMap.get i (handleApply sel s) = Some payload →
       payload !! k = Some v →
       ∃ r, r ∈ sel ∧ id r = i
            ∧ (labels r !! k = Some v
               ∨ ¬ reportsError (validateKey k)
                 ∧ ¬ reportsError (validateValue v))).
Proof.
  intros Hm Hv. apply apply_gate in Hv. rewrite Hm in Hv.
  destruct Hv as [_ Hall].
  assert (∀ r k v, (k, v) ∈ appliedRules s r →
                   ¬ reportsError (validateKey k)
                   ∧ ¬ reportsError (validateValue v)) as Hrules.
  { intros r k v Hin. unfold appliedRules in Hin. rewrite Hm in Hin.
    apply staticRule_elem in Hin as (Hin & Hk & _).
    apply (Hall (k, v) Hin). by left. }
  split; [done|].
  intros i payload k v Hg Hl.
  assert (mode s ≠ CLEANUP) as Hm' by (by rewrite Hm).
  destruct (additive_strategies_keep_labels sel s Hm') as (_ & _ & Hpay).
  destruct (Hpay i payload Hg) as (r & Hr & Hid & -> & _).
  exists r. split_and!; [done | done |].
  rewrite candidate_rules in Hl by done.
  apply applyAll_lookup_cases in Hl as [?|Hin]; [by left|right].
  by apply (Hrules r).
Qed.
End GateSafety.

Lemma static_gate_validates_witness :
  let s := withStatic [("env", "prod"); ("", "")] in
  let sel := [mkResource "r1" "vm-1" [("Legacy Key", "X")]] in
  mode s = STATIC
  ∧ isValid s = true
  ∧ JsMap.get "r1" (handleApply sel s)
    = Some {[ "Legacy Key" := "X"; "env" := "prod" ]}
  ∧ ¬ reportsError (validateKey "env").
Proof.
  intros s sel.
  assert (mode s = STATIC) as Hm by done.
  assert (isValid s = true) as Hv by reflexivity.
  destruct (static_gate_validates sel s Hm Hv) as [Hrules _].
  split_and!; [done | done | vm_compute; reflexivity |].
  apply (Hrules (mkResource "r1" "vm-1" [("Legacy Key", "X")]) "env" "prod").
  apply list_elem_of_here.
Defined.

Section BlankRows.
Context `{RegExpEngine} `{Validator}.

Lemma previewData_ext sel s s' :
  (∀ r, evalResource s' (compiledRegex s') r
        = evalResource s (compiledRegex s) r) →
  previewData sel s' = previewData sel s.
Proof.
  intros Hext. induction sel as [|r sel IH] using rev_ind; [done|].
  rewrite !previewData_snoc, IH. unfold previewStep. by rewrite Hext.
Qed.

Lemma foldl_snoc_id {A B : Type} (f : A → B → A) (a : A) (l : list B) b :
  (∀ a', f a' b = a') → foldl f a (l ++ [b]) = foldl f a l.
Proof. intros Hb. rewrite foldl_app. simpl. apply Hb. Qed.

Lemma existsb_snoc_false {A : Type} (f : A → bool) (l : list A) a :
  f a = false → existsb f (l ++ [a]) = existsb f l.
Proof. intros Ha. rewrite existsb_app. simpl. rewrite Ha. by rewrite !orb_false_r. Qed.

(** X6.  A blank row is neutral: after "Add Field", "Add Mapping", "Add
    Group" or "Add Key" the preview map and the gate are what they were
    (in every mode). *)
Theorem blank_rows_neutral sel s :
  (previewData sel (addField s) = previewData sel s
   ∧ isValid (addField s) = isValid s)
  ∧ (previewData sel (addMapping s) = previewData sel s
     ∧ isValid (addMapping s) = isValid s)
  ∧ (previewData sel (addGroup s) = previewData sel s
     ∧ isValid (addGroup s) = isValid s)
  ∧ (previewData sel (addKey s) = previewData sel s
     ∧ isValid (addKey s) = isValid s).
Proof.
  split_and!.
  - apply previewData_ext. intros r. unfold evalResource, compiledRegex.
    simpl. destruct (mode s); try done.
    apply foldl_snoc_id. by intros [m chs].
  - unfold isValid. simpl. destruct (mode s); try done.
    unfold validRows, hasErrors, staticLabelErrors.
    rewrite List.filter_app, fmap_app, existsb_app. simpl.
    by rewrite app_nil_r, orb_false_r.
  - apply previewData_ext. intros r. unfold evalResource, compiledRegex.
    simpl. destruct (mode s); try done.
    apply foldl_snoc_id. intros [m chs]. unfold patternStep.
    by destruct (Js.at_index _ _).
  - unfold isValid. simpl. destruct (mode s); try done.
    by apply existsb_snoc_false.
  - apply previewData_ext. intros r. unfold evalResource, compiledRegex.
    simpl. destruct (mode s); try done.
    destruct (newRegExp (regexPattern s)) as [re|]; [|done].
    destruct (String_match (name r) re) as [match_|]; [|done].
    apply foldl_snoc_id. intros [m chs]. unfold regexStep.
    by destruct (Js.at_index _ _) as [[?|]|].
  - unfold isValid. simpl. destruct (mode s); try done.
    by apply existsb_snoc_false.
  - apply previewData_ext. intros r. unfold evalResource, compiledRegex.
    simpl. destruct (mode s); try done.
    apply foldl_snoc_id. by intros [m chs].
  - unfold isValid. simpl. destruct (mode s); try done.
    by apply existsb_snoc_false.
Qed.

Lemma length_set {V : Type} k (v : V) (m : list (string * V)) :
  length m ≤ length (JsMap.set k v m) ≤ S (length m).
Proof.
  induction m as [|[k' v'] m IH]; simpl; [lia|].
  destruct (decide (k = k')); simpl; lia.
Qed.

Lemma previewData_has sel s r :
  r ∈ sel → changesOf s r ≠ [] →
  is_Some (JsMap.get (id r) (previewData sel s)).
Proof.
  induction sel as [|r0 sel IH] using rev_ind; intros Hin Hch.
  - by apply not_elem_of_nil in Hin.
  - rewrite previewData_snoc, previewStep_entry.
    apply elem_of_app in Hin as [Hin|Hin].
    + destruct (entryFor s r0) as [[i e]|]; [|by apply IH].
      destruct (decide (i = id r)) as [->|Hne].
      * rewrite get_set_eq. eauto.
      * rewrite get_set_ne by done. by apply IH.
    + apply list_elem_of_singleton in Hin as <-.
      rewrite entryFor_Some by done. rewrite get_set_eq. eauto.
Qed.

(** X7.  The preview map never holds a no-op entry: every entry belongs
    to a selected resource with that id, holds its original labels, its
    candidate and its change list, and the change list is not empty.  The
    map has one entry per key and at most as many entries as selected
    resources; the id of every selected resource with a non-empty change
    list is a key. *)
Theorem preview_entries sel s :
  NoDup (JsMap.keys (previewData sel s))
  ∧ JsMap.size (previewData sel s) ≤ length sel
  ∧ (∀ i e, JsMap.get i (previewData sel s) = Some e →
            changes e ≠ []
            ∧ ∃ r, r ∈ sel ∧ id r = i ∧ original e = labels r
                   ∧ new e = candidate s r ∧ changes e = changesOf s r)
  ∧ (∀ r, r ∈ sel → changesOf s r ≠ [] →
          id r ∈ JsMap.keys (previewData sel s)).
Proof.
  split_and!.
  - apply previewData_keys_NoDup.
  - unfold JsMap.size.
    induction sel as [|r sel IH] using rev_ind; [done|].
    rewrite previewData_snoc, previewStep_entry, length_app. simpl.
    destruct (entryFor s r) as [[i e]|]; [|lia].
    pose proof (length_set i e (previewData sel s)). lia.
  - intros i e Hg. apply previewData_get in Hg as (r & Hr & He).
    unfold entryFor in He. destruct (changesOf s r) as [|c chs] eqn:Hch;
      [done|].
    injection He as <- <-. simpl. split; [done|]. exists r.
    by rewrite Hch.
  - intros r Hr Hch. destruct (previewData_has sel s r Hr Hch) as [e He].
    destruct (decide (id r ∈ JsMap.keys (previewData sel s))); [done|].
    apply get_None in n. congruence.
Qed.

(** X8.  The "Apply" button is enabled exactly when the gate is open and
    some selected resource has a non-empty change list. *)
Theorem apply_enabled_iff sel s :
  applyEnabled sel s = true
  ↔ isValid s = true ∧ ∃ r, r ∈ sel ∧ changesOf s r ≠ [].
Proof.
  unfold applyEnabled, JsMap.size.
  rewrite negb_true_iff, orb_false_iff, negb_false_iff, bool_decide_eq_false.
  split; intros [Hv Hp]; (split; [done|]).
  - destruct (previewData sel s) as [|[i e] m] eqn:Hpd; [done|].
    assert (JsMap.get i (previewData sel s) = Some e) as Hg.
    { rewrite Hpd. simpl. by rewrite decide_True. }
    apply previewData_get in Hg as (r & Hr & He). exists r. split; [done|].
    intros Hch. apply entryFor_None in Hch. congruence.
  - destruct Hp as (r & Hr & Hch).
    destruct (previewData_has sel s r Hr Hch) as [e He].
    intros Hlen. apply length_zero_iff_nil in Hlen.
    by rewrite Hlen in He.
Qed.
End BlankRows.

(** ** Tokens and templates *)

Lemma sapp_cons c s t : String c s +:+ t = String c (s +:+ t).
Proof. done. Qed.

Lemma sapp_nil_l s : "" +:+ s = s.
Proof. done. Qed.

Lemma sapp_nil_r s : s +:+ "" = s.
Proof. induction s as [|c s IH]; [done|]. by rewrite sapp_cons, IH. Qed.

Lemma sapp_assoc s t u : (s +:+ t) +:+ u = s +:+ (t +:+ u).
Proof. induction s as [|c s IH]; [done|]. by rewrite !sapp_cons, IH. Qed.

Lemma prefix_app sep s :
  String.prefix sep s = true → ∃ u, s = sep +:+ u.
Proof.
  revert s. induction sep as [|c sep IH]; intros s; [by exists s|].
  destruct s as [|c' s]; simpl; [done|].
  destruct (ascii_dec c c') as [<-|]; [|done].
  intros Hp. destruct (IH s Hp) as [u ->]. by exists u.
Qed.

Lemma prefix_app_true sep u : String.prefix sep (sep +:+ u) = true.
Proof.
  induction sep as [|c sep IH]; [by destruct u|].
  rewrite sapp_cons. simpl. by destruct (ascii_dec c c).
Qed.

Lemma split_from_cons sep skip cur s :
  ∃ x xs, Js.split_from sep skip cur s = x :: xs.
Proof.
  revert skip cur.
  induction s as [|c s IH]; intros skip cur; cbn [Js.split_from]; [eauto|].
  destruct skip; [|apply IH].
  destruct (String.prefix sep (String c s)); [eauto | apply IH].
Qed.

Lemma split_from_skip sep t cur u :
  Js.split_from sep (String.length t) cur (t +:+ u)
  = Js.split_from sep 0 cur u.
Proof.
  induction t as [|c t IH]; [done|]. rewrite sapp_cons. simpl. apply IH.
Qed.

(** The scanning loop at a separator: the token is closed and the scan
    resumes behind the separator. *)
Lemma split_from_match sep u cur :
  sep ≠ "" →
  Js.split_from sep 0 cur (sep +:+ u) = cur :: Js.split_from sep 0 "" u.
Proof.
  intros Hsep. destruct sep as [|c sep]; [done|].
  rewrite sapp_cons. cbn [Js.split_from].
  rewrite <-sapp_cons, prefix_app_true. f_equal.
  replace (String.length (String c sep) - 1) with (String.length sep)
    by (simpl; lia).
  apply split_from_skip.
Qed.

Lemma split_from_nomatch sep c s cur :
  String.prefix sep (String c s) = false →
  Js.split_from sep 0 cur (String c s)
  = Js.split_from sep 0 (cur +:+ String c "") s.
Proof. intros Hp. cbn [Js.split_from]. by rewrite Hp. Qed.

Lemma concat_cons sep x xs :
  xs ≠ [] → String.concat sep (x :: xs) = x +:+ sep +:+ String.concat sep xs.
Proof. by destruct xs. Qed.

Lemma split_from_join sep (n : nat) s cur :
  sep ≠ "" → String.length s ≤ n →
  String.concat sep (Js.split_from sep 0 cur s) = cur +:+ s.
Proof.
  intros Hsep. revert s cur.
  induction n as [|n IH]; intros s cur Hlen.
  - destruct s; [|simpl in Hlen; lia]. simpl. by rewrite sapp_nil_r.
  - destruct s as [|c s]; [simpl; by rewrite sapp_nil_r|].
    destruct (String.prefix sep (String c s)) eqn:Hp.
    + destruct (prefix_app _ _ Hp) as [u Hu]. rewrite Hu.
      rewrite split_from_match by done.
      destruct (split_from_cons sep 0 "" u) as (x & xs & Hx).
      rewrite concat_cons by (by rewrite Hx). rewrite IH; [done|].
      assert (String.length (String c s)
              = String.length sep + String.length u) as Hl.
      { rewrite Hu. clear. induction sep as [|c sep IH]; [done|].
        rewrite sapp_cons. simpl. by rewrite IH. }
      destruct sep; [done|]. simpl in Hl, Hlen. lia.
    + rewrite split_from_nomatch by done.
      rewrite IH by (simpl in Hlen; lia).
      by rewrite sapp_assoc.
Qed.

(** X9.  Joining the tokens of a split with the separator gives the
    string back, for every string and separator (the empty one
    included); with a non-empty separator there is at least one token.
    So the tokens previewed for the sample name, and the parts PATTERN
    reads, spell the name. *)
Theorem split_join s sep :
  String.concat sep (Js.split s sep) = s
  ∧ (sep ≠ "" → Js.split s sep ≠ []).
Proof.
  split.
  - destruct sep as [|c sep].
    + unfold Js.split. induction s as [|c s IH]; [done|]. csimpl.
      destruct (String.list_ascii_of_string s) as [|c' l] eqn:Hl.
      * destruct s; [done | by simpl in Hl].
      * csimpl in *. by rewrite IH.
    + unfold Js.split.
      rewrite (split_from_join _ (String.length s)) by done. done.
  - intros Hsep. destruct sep as [|c sep]; [done|]. unfold Js.split.
    destruct (split_from_cons (String c sep) 0 "" s) as (x & xs & ->). done.
Qed.

Lemma freeOf_cons sep c s : freeOf sep (String c s) → freeOf sep s.
Proof. intros Hf t u ->. by apply (Hf (String c t) u). Qed.

Lemma freeOf_prefix sep s : freeOf sep s → sep ≠ "" → String.prefix sep s = false.
Proof.
  intros Hf Hsep. destruct (String.prefix sep s) eqn:Hp; [|done].
  apply prefix_app in Hp as [u ->]. by destruct (Hf "" u).
Qed.

Lemma split_from_free sep s cur :
  sep ≠ "" → freeOf sep s → Js.split_from sep 0 cur s = [cur +:+ s].
Proof.
  intros Hsep. revert cur. induction s as [|c s IH]; intros cur Hf.
  - simpl. by rewrite sapp_nil_r.
  - rewrite split_from_nomatch by (by apply freeOf_prefix).
    apply freeOf_cons in Hf. rewrite IH by done. by rewrite sapp_assoc.
Qed.

Lemma split_from_key key rest cur :
  freeOf ":" key →
  Js.split_from "::" 0 cur (key +:+ "::" +:+ rest)
  = (cur +:+ key) :: Js.split_from "::" 0 "" rest.
Proof.
  revert cur. induction key as [|c key IH]; intros cur Hf.
  - rewrite sapp_nil_l, sapp_nil_r. by apply split_from_match.
  - rewrite sapp_cons.
    assert (c ≠ ":"%char) as Hc.
    { intros ->. by apply (Hf "" key). }
    rewrite split_from_nomatch.
    + apply freeOf_cons in Hf. rewrite IH by done. by rewrite sapp_assoc.
    + cbn [String.prefix]. by destruct (ascii_dec ":"%char c).
Qed.

Lemma split_template key value :
  freeOf ":" key → freeOf "::" value →
  Js.split (templateString key value) "::" = [key; value].
Proof.
  intros Hk Hv. unfold templateString, Js.split.
  rewrite split_from_key by done. f_equal.
  by rewrite split_from_free.
Qed.

(** X10.  The option value of a template encodes its key and value and
    the split decodes them: for a key without a colon and a value without
    a double colon, splitting [key::value] on the double colon gives the
    key and the value. *)
Theorem template_round_trip key value :
  freeOf ":" key → freeOf "::" value →
  Js.split (templateString key value) "::" = [key; value].
Proof.
  intros Hk Hv. unfold templateString, Js.split.
  rewrite split_from_key by done. f_equal.
  by rewrite split_from_free.
Qed.

Lemma slength_app t v :
  String.length (t +:+ v) = String.length t + String.length v.
Proof.
  induction t as [|c t IH]; [done|]. rewrite sapp_cons. simpl. by rewrite IH.
Qed.

Lemma substring_all s : String.substring 0 (String.length s) s = s.
Proof. induction s as [|c s IH]; [done|]. simpl. by rewrite IH. Qed.

Lemma substring_app t v :
  String.substring (String.length t) (String.length v) (t +:+ v) = v.
Proof.
  induction t as [|c t IH]; [apply substring_all|].
  rewrite sapp_cons. simpl. apply IH.
Qed.

(** A way to check that a given string has no occurrence of [sep]. *)
Lemma freeOf_decide sep s :
  (∀ n, n ≤ String.length s →
        String.prefix sep (String.substring n (String.length s - n) s)
        = false) →
  freeOf sep s.
Proof.
  intros Hall t u ->.
  specialize (Hall (String.length t)).
  rewrite slength_app in Hall.
  replace (String.length t + String.length (sep +:+ u) - String.length t)
    with (String.length (sep +:+ u)) in Hall by lia.
  rewrite substring_app, prefix_app_true in Hall.
  specialize (Hall ltac:(lia)). done.
Qed.

Lemma template_round_trip_witness :
  freeOf ":" "cost-center" ∧ freeOf "::" "cc-123:a"
  ∧ Js.split (templateString "cost-center" "cc-123:a") "::"
    = ["cost-center"; "cc-123:a"].
Proof.
  assert (freeOf ":" "cost-center") as Hk.
  { apply freeOf_decide. intros n Hn. simpl in Hn.
    do 12 (destruct n as [|n]; [reflexivity|]). lia. }
  assert (freeOf "::" "cc-123:a") as Hv.
  { apply freeOf_decide. intros n Hn. simpl in Hn.
    do 9 (destruct n as [|n]; [reflexivity|]). lia. }
  split_and!; [done | done | by apply template_round_trip].
Defined.

Lemma existsb_key_elem (rows : list (string * string)) k :
  existsb (λ l : string * string, bool_decide (l.1 = k)) rows = true
  ↔ k ∈ rows.*1.
Proof.
  rewrite existsb_elem_of, list_elem_of_fmap. split.
  - intros (l & Hl & Hk). apply bool_decide_eq_true in Hk. eauto.
  - intros (l & -> & Hl). exists l. split; [done|].
    by apply bool_decide_eq_true.
Qed.

Lemma last_dropLast {A : Type} (l : list A) x :
  last l = Some x → l = dropLast l ++ [x].
Proof.
  intros Hl. apply last_Some in Hl as [l' ->]. unfold dropLast.
  rewrite length_app. simpl.
  replace (length l' + 1 - 1) with (length l') by lia.
  by rewrite take_app_length.
Qed.

Lemma templateString_truthy key value :
  Js.truthy (templateString key value) = true.
Proof. unfold templateString. by destruct key. Qed.

Lemma otherRows_app k l1 l2 :
  otherRows k (l1 ++ l2) = otherRows k l1 ++ otherRows k l2.
Proof. apply List.filter_app. Qed.

(** A template that is already in the rows is left alone. *)
Lemma addTemplate_present rows key value :
  freeOf ":" key → freeOf "::" value →
  key ∈ rows.*1 →
  (∀ l, l ∈ rows → l.1 = key → l.2 = value) →
  addTemplateToStatic (templateString key value) rows = Some rows.
Proof.
  intros Hk Hv Hin Hall. unfold addTemplateToStatic.
  rewrite templateString_truthy, split_template by done. simpl.
  apply existsb_key_elem in Hin. rewrite Hin. f_equal.
  rewrite <-(list_fmap_id rows) at 2. apply list_fmap_ext.
  intros i [k v] Hl. apply list_elem_of_lookup_2 in Hl. simpl.
  case_bool_decide as Hkey; [|done]. subst k.
  f_equal. symmetry. by apply (Hall _ Hl).
Qed.

(** X11.  Choosing a template whose key has no colon and whose value has
    no double colon leaves the static rows with a row for that key and
    value, every row of that key holding that value; the non-blank rows of
    other keys are kept as they are, in order; at most one row is added;
    and choosing the same template again changes nothing. *)
Theorem add_template_to_static rows key value :
  freeOf ":" key → freeOf "::" value →
  ∃ rows',
    addTemplateToStatic (templateString key value) rows = Some rows'
    ∧ (key, value) ∈ rows'
    ∧ (∀ l, l ∈ rows' → l.1 = key → l.2 = value)
    ∧ otherRows key rows' = otherRows key rows
    ∧ length rows ≤ length rows' ≤ S (length rows)
    ∧ addTemplateToStatic (templateString key value) rows' = Some rows'.
Proof.
  intros Hk Hv.
  assert (∀ rows', (key, value) ∈ rows' →
                   (∀ l, l ∈ rows' → l.1 = key → l.2 = value) →
                   addTemplateToStatic (templateString key value) rows'
                   = Some rows') as Hidem.
  { intros rows' Hin Hall. apply addTemplate_present; [done..| |done].
    apply list_elem_of_fmap. by exists (key, value). }
  unfold addTemplateToStatic at 1.
  rewrite templateString_truthy, split_template by done. simpl.
  destruct (existsb _ rows) eqn:Hex.
  - set (upd := λ l : string * string,
                  if bool_decide (l.1 = key) then (l.1, value) else l).
    assert ((key, value) ∈ upd <$> rows) as Hin.
    { apply existsb_key_elem, list_elem_of_fmap in Hex as ([k v] & -> & Hl).
      apply list_elem_of_fmap. exists (k, v). split; [|done].
      unfold upd. simpl. by rewrite bool_decide_eq_true_2. }
    assert (∀ l, l ∈ upd <$> rows → l.1 = key → l.2 = value) as Hall.
    { intros l Hl Hkey. apply list_elem_of_fmap in Hl as ([k v] & -> & _).
      unfold upd in *. simpl in *. by case_bool_decide. }
    exists (upd <$> rows). split_and!; [done | done | done | | | | by apply Hidem].
    + clear. induction rows as [|[k v] rows IH]; [done|].
      rewrite fmap_cons.
      change (upd (k, v) :: (upd <$> rows))
        with ([upd (k, v)] ++ (upd <$> rows)).
      change ((k, v) :: rows) with ([(k, v)] ++ rows).
      rewrite !otherRows_app, IH. f_equal.
      unfold upd, otherRows. simpl.
      destruct (decide (k = key)) as [->|Hne].
      * by rewrite !(bool_decide_eq_true_2 (key = key)).
      * by rewrite !(bool_decide_eq_false_2 (k = key)).
    + by rewrite length_fmap.
    + rewrite length_fmap. lia.
  - assert (key ∉ rows.*1) as Hnin.
    { intros Hin. apply existsb_key_elem in Hin. congruence. }
    assert (∀ l, l ∈ rows → l.1 ≠ key) as Hrows.
    { intros l Hl <-. apply Hnin, list_elem_of_fmap. eauto. }
    assert (otherRows key [(key, value)] = []) as Hnew.
    { unfold otherRows. simpl. by rewrite bool_decide_eq_true_2. }
    assert (∀ base, (∀ l, l ∈ base → l ∈ rows) →
              (key, value) ∈ base ++ [(key, value)]
              ∧ (∀ l, l ∈ base ++ [(key, value)] → l.1 = key → l.2 = value))
      as Hbase.
    { intros base Hsub. split.
      - apply elem_of_app. right. apply list_elem_of_here.
      - intros l Hl Hkey. apply elem_of_app in Hl as [Hl|Hl].
        + by destruct (Hrows l (Hsub l Hl)).
        + by apply list_elem_of_singleton in Hl as ->. }
    destruct (last rows) as [[k v]|] eqn:Hlast.
    + pose proof (last_dropLast _ _ Hlast) as Hsplit.
      assert (∀ l, l ∈ dropLast rows → l ∈ rows) as Hsub.
      { intros l Hl. rewrite Hsplit. apply elem_of_app. by left. }
      assert (length rows = S (length (dropLast rows))) as Hlen.
      { rewrite Hsplit at 1. rewrite length_app. simpl. lia. }
      destruct k as [|c k]; [destruct v as [|c v]|].
      * destruct (Hbase (dropLast rows) Hsub) as [Hin Hall].
        exists (dropLast rows ++ [(key, value)]).
        split_and!; [done | done | done | | | | by apply Hidem].
        -- rewrite Hsplit at 2. rewrite !otherRows_app, Hnew. f_equal.
           unfold otherRows. simpl. by rewrite andb_false_r.
        -- rewrite length_app. simpl. lia.
        -- rewrite length_app. simpl. lia.
      * destruct (Hbase rows ltac:(done)) as [Hin Hall].
        exists (rows ++ [(key, value)]).
        split_and!; [done | done | done | | | | by apply Hidem].
        -- by rewrite otherRows_app, Hnew, app_nil_r.
        -- rewrite length_app. lia.
        -- rewrite length_app. simpl. lia.
      * destruct (Hbase rows ltac:(done)) as [Hin Hall].
        exists (rows ++ [(key, value)]).
        split_and!; [done | done | done | | | | by apply Hidem].
        -- by rewrite otherRows_app, Hnew, app_nil_r.
        -- rewrite length_app. lia.
        -- rewrite length_app. simpl. lia.
    + destruct (Hbase rows ltac:(done)) as [Hin Hall].
      exists (rows ++ [(key, value)]).
      split_and!; [done | done | done | | | | by apply Hidem].
      * by rewrite otherRows_app, Hnew, app_nil_r.
      * rewrite length_app. lia.
      * rewrite length_app. simpl. lia.
Qed.

Lemma add_template_to_static_witness :
  freeOf ":" "env" ∧ freeOf "::" "prod"
  ∧ addTemplateToStatic (templateString "env" "prod")
      [("team", "core"); ("", "")]
    = Some [("team", "core"); ("env", "prod")]
  ∧ addTemplateToStatic (templateString "env" "prod")
      [("env", "dev"); ("", "")]
    = Some [("env", "prod"); ("", "")]
  ∧ addTemplateToStatic "" [("env", "dev")] = Some [("env", "dev")]
  ∧ addTemplateToStatic "no-separator" [("env", "dev")] = None.
Proof.
  assert (freeOf ":" "env") as Hk.
  { apply freeOf_decide. intros n Hn. simpl in Hn.
    do 4 (destruct n as [|n]; [reflexivity|]). lia. }
  assert (freeOf "::" "prod") as Hv.
  { apply freeOf_decide. intros n Hn. simpl in Hn.
    do 5 (destruct n as [|n]; [reflexivity|]). lia. }
  destruct (add_template_to_static [("team", "core"); ("", "")] "env" "prod"
              Hk Hv) as (rows' & Hadd & _).
  split_and!; [done | done | | reflexivity | reflexivity | reflexivity].
  rewrite Hadd. vm_compute in Hadd. by injection Hadd as <-.
Defined.

(** ** Mapping positions and colours *)

Lemma insertByPosition_perm m l : insertByPosition m l ≡ₚ m :: l.
Proof.
  induction l as [|m' l IH]; simpl; [done|].
  destruct (m.1 <? m'.1)%Z; [done|]. rewrite IH. apply Permutation_swap.
Qed.

Lemma sortByPosition_snoc l m :
  sortByPosition (l ++ [m]) = insertByPosition m (sortByPosition l).
Proof. unfold sortByPosition. by rewrite foldl_app. Qed.

Lemma sortByPosition_perm l : sortByPosition l ≡ₚ l.
Proof.
  induction l as [|m l IH] using rev_ind; [done|].
  rewrite sortByPosition_snoc, insertByPosition_perm, IH.
  by rewrite Permutation_cons_append.
Qed.









Section Resort.
Context `{RegExpEngine}.

(** X13.  The sort in [updateMappingPosition] does not change what
    PATTERN computes when the applied mappings name pairwise different
    keys: the sorted mappings give every resource the same candidate as
    the unsorted ones, and the same change records up to their order. *)
Theorem resort_keeps_preview s r ms :
  mode s = PATTERN →
  NoDup (appliedRules (setMappings ms s) r).*1 →
  candidate (setMappings (sortByPosition ms) s) r
  = candidate (setMappings ms s) r
  ∧ changesOf (setMappings (sortByPosition ms) s) r
    ≡ₚ changesOf (setMappings ms s) r.
Proof.
  intros Hm Hnd.
  assert (mode (setMappings ms s) ≠ CLEANUP) as Hm1 by (simpl; by rewrite Hm).
  assert (mode (setMappings (sortByPosition ms) s) ≠ CLEANUP) as Hm2
    by (simpl; by rewrite Hm).
  assert (appliedRules (setMappings ms s) r
          ≡ₚ appliedRules (setMappings (sortByPosition ms) s) r) as Hp.
  { symmetry.
    apply (appliedRules_mappings_perm (setMappings ms s) r
             (sortByPosition ms)); [done|].
    apply sortByPosition_perm. }
  rewrite !candidate_rules, !changesOf_rules by done. split.
  - symmetry. by apply applyAll_perm.
  - by rewrite Hp.
Qed.
End Resort.

(** With distinct keys the sort is harmless; with a key mapped twice it
    decides which mapping wins. *)
Lemma resort_keeps_preview_witness :
  let s := withPattern "-" [] in
  let r := mkResource "r1" "a-b-c" [] in
  mode s = PATTERN
  ∧ NoDup (appliedRules (setMappings [(2%Z, "x"); (1%Z, "y")] s) r).*1
  ∧ candidate (setMappings (sortByPosition [(2%Z, "x"); (1%Z, "y")]) s) r
    = candidate (setMappings [(2%Z, "x"); (1%Z, "y")] s) r
  ∧ candidate (setMappings [(2%Z, "k"); (1%Z, "k")] s) r = {[ "k" := "b" ]}
  ∧ candidate (setMappings (sortByPosition [(2%Z, "k"); (1%Z, "k")]) s) r
    = {[ "k" := "c" ]}.
Proof.
  intros s r. assert (mode s = PATTERN) as Hm by done.
  assert (NoDup (appliedRules (setMappings [(2%Z, "x"); (1%Z, "y")] s) r).*1)
    as Hnd.
  { apply (bool_decide_unpack _). vm_compute. exact I. }
  destruct (resort_keeps_preview s r _ Hm Hnd) as [Hc _].
  split_and!; [done | done | exact Hc | reflexivity | reflexivity].
Defined.

Lemma findIndex_None {A : Type} (p : A → bool) (l : list A) :
  findIndex p l = None ↔ ∀ a, a ∈ l → p a = false.
Proof.
  induction l as [|a l IH]; simpl.
  - split; [|done]. intros _ a Ha. by apply not_elem_of_nil in Ha.
  - destruct (p a) eqn:Hp.
    + split; [done|]. intros Hall.
      rewrite (Hall a) in Hp by apply list_elem_of_here. done.
    + rewrite fmap_None, IH. split.
      * intros Hall a' Ha'. apply elem_of_cons in Ha' as [->|Ha']; auto.
      * intros Hall a' Ha'. apply Hall. by apply list_elem_of_further.
Qed.

Lemma find_findIndex {A : Type} (p : A → bool) (l : list A) :
  find p l = findIndex p l ≫= (l !!.).
Proof.
  induction l as [|a l IH]; simpl; [done|].
  destruct (p a); [done|]. rewrite IH. by destruct (findIndex p l).
Qed.

Lemma findIndex_Some {A : Type} (p : A → bool) (l : list A) i :
  findIndex p l = Some i →
  ∃ a, l !! i = Some a ∧ p a = true
       ∧ ∀ j b, j < i → l !! j = Some b → p b = false.
Proof.
  revert i. induction l as [|a l IH]; intros i; simpl; [done|].
  destruct (p a) eqn:Hp.
  - intros [= <-]. exists a. split_and!; [done | done | intros; lia].
  - intros Hi. apply fmap_Some in Hi as (i' & Hi' & ->).
    destruct (IH i' Hi') as (a' & Ha' & Hpa' & Hfirst).
    exists a'. split_and!; [done | done |].
    intros [|j] b Hj Hb; simpl in Hb; [by injection Hb as <-|].
    apply (Hfirst j); [lia | done].
Qed.

(** X14.  A token index is shown in the default gray exactly when no
    mapping has that position ([getMappingForIndex] finds none);
    otherwise its colour is the palette colour, cyclically, of the first
    mapping with that position, which is the mapping
    [getMappingForIndex] finds. *)
Theorem mapping_colour mappings index :
  (getMappingColor mappings index = defaultGray
   ↔ getMappingForIndex mappings index = None)
  ∧ (getMappingForIndex mappings index = None ↔ index ∉ mappings.*1)
  ∧ (∀ m, getMappingForIndex mappings index = Some m →
          m.1 = index
          ∧ ∃ i, mappings !! i = Some m
                 ∧ (∀ j m', j < i → mappings !! j = Some m' → m'.1 ≠ index)
                 ∧ MAPPING_COLORS !! (i mod 6)
                   = Some (getMappingColor mappings index)).
Proof.
  unfold getMappingColor, getMappingForIndex.
  rewrite find_findIndex. change (length MAPPING_COLORS) with 6.
  destruct (findIndex _ mappings) as [i|] eqn:Hi.
  - apply findIndex_Some in Hi as (m & Hm & Hp & Hfirst).
    apply bool_decide_eq_true in Hp. cbn [mbind option_bind]. rewrite Hm.
    assert (i mod 6 < 6) as Hlt by (by apply Nat.mod_upper_bound).
    remember (i mod 6) as k eqn:Hk.
    assert (∃ c, MAPPING_COLORS !! k = Some c ∧ c ≠ defaultGray)
      as (c & Hc & Hgray).
    { clear -Hlt. destruct k as [|[|[|[|[|[|n]]]]]]; [..|lia];
        (eexists; split; [reflexivity|]); by vm_compute. }
    rewrite Hc. change (default defaultGray (Some c)) with c. split_and!.
    + split; [|done]. intros Heq. by destruct Hgray.
    + split; [done|]. intros Hnin. exfalso. apply Hnin.
      apply list_elem_of_fmap. exists m. split; [done|].
      by apply list_elem_of_lookup_2 in Hm.
    + intros m' [= <-]. split; [done|]. exists i. split_and!; [done| |].
      * intros j m' Hj Hm'. specialize (Hfirst j m' Hj Hm').
        by apply bool_decide_eq_false in Hfirst.
      * by rewrite <-Hk.
  - simpl. split_and!; [done | | done].
    split; [|done]. intros _ Hin.
    apply list_elem_of_fmap in Hin as (m & -> & Hm).
    pose proof (proj1 (findIndex_None _ _) Hi m Hm) as Hp.
    by apply bool_decide_eq_false in Hp.
Qed.

(** ** Order of the groups and of the label keys *)

Lemma ltb_le a b : String.ltb a b = true → String.le a b.
Proof.
  unfold String.ltb, String.le, String.leb.
  by destruct (String.compare a b).
Qed.

Lemma ltb_false_le a b : String.ltb a b = false → String.le b a.
Proof.
  unfold String.ltb, String.le, String.leb.
  rewrite (String.compare_antisym a b).
  by destruct (String.compare b a).
Qed.


Lemma insertSorted_sorted k ks :
  StronglySorted String.le ks → StronglySorted String.le (insertSorted k ks).
Proof.
  induction ks as [|k' ks IH]; intros Hs; simpl.
  - by repeat constructor.
  - apply StronglySorted_inv in Hs as [Hs Hall].
    destruct (String.ltb k k') eqn:Hlt.
    + apply ltb_le in Hlt. constructor; [by constructor|].
      constructor; [done|]. eapply Forall_impl; [done|].
      intros k'' Hk''. by etrans.
    + apply ltb_false_le in Hlt. constructor; [by apply IH|].
      rewrite insertSorted_perm. by constructor.
Qed.

Lemma sortKeys_sorted ks : StronglySorted String.le (sortKeys ks).
Proof.
  unfold sortKeys. induction ks as [|k ks IH] using rev_ind; [constructor|].
  rewrite foldl_app. simpl. by apply insertSorted_sorted.
Qed.

(** The sort does not depend on the order of its input when the keys are
    pairwise different. *)
Lemma sortKeys_unique ks1 ks2 :
  NoDup ks1 → NoDup ks2 → (∀ k, k ∈ ks1 ↔ k ∈ ks2) →
  sortKeys ks1 = sortKeys ks2.
Proof.
  intros Hnd1 Hnd2 Helem.
  apply (StronglySorted_unique String.le); [apply sortKeys_sorted..|].
  rewrite !sortKeys_perm. by apply NoDup_Permutation.
Qed.


(** ** Rows and counts of the grouped display *)

Lemma omap_concat {A B : Type} (f : A → option B) (ls : list (list A)) :
  omap f (concat ls) = concat ((λ l : list A, omap f l) <$> ls).
Proof.
  induction ls as [|l ls IH]; [done|]. csimpl. by rewrite omap_app, IH.
Qed.

Lemma resourceRows_resources ms : resourceRows (resource <$> ms) = ms.
Proof. induction ms as [|r ms IH]; [done|]. csimpl. by rewrite IH. Qed.

Lemma headerCounts_resources ms : headerCounts (resource <$> ms) = [].
Proof. induction ms as [|r ms IH]; [done|]. csimpl. by rewrite IH. Qed.

Lemma resourceRows_block gl l C g :
  resourceRows (groupBlock gl l C g)
  = if bool_decide (g ∈ C) then [] else members gl g l.
Proof.
  unfold groupBlock. destruct (bool_decide (g ∈ C)); [done|].
  unfold resourceRows. csimpl. apply resourceRows_resources.
Qed.

Lemma headerCounts_block gl l C g :
  headerCounts (groupBlock gl l C g) = [length (members gl g l)].
Proof.
  unfold groupBlock. destruct (bool_decide (g ∈ C)); [done|].
  unfold headerCounts. csimpl. f_equal. apply headerCounts_resources.
Qed.

Lemma members_cons gl g r l :
  members gl g (r :: l)
  = (if bool_decide (groupValue gl r = g) then [r] else []) ++ members gl g l.
Proof. unfold members. simpl. by destruct (bool_decide _). Qed.

Lemma concat_app_perm {A B : Type} (F G : A → list B) (K : list A) :
  concat ((λ g, F g ++ G g) <$> K) ≡ₚ concat (F <$> K) ++ concat (G <$> K).
Proof.
  induction K as [|g K IH]; [done|]. csimpl. rewrite IH.
  rewrite <-!app_assoc. f_equiv. rewrite !app_assoc. f_equiv.
  apply Permutation_app_comm.
Qed.

Lemma concat_single {B : Type} (K : list string) g0 (xs : list B) :
  NoDup K →
  concat ((λ g, if bool_decide (g0 = g) then xs else []) <$> K)
  = if bool_decide (g0 ∈ K) then xs else [].
Proof.
  induction 1 as [|g K Hg Hnd IH]; [done|]. csimpl. rewrite IH.
  destruct (decide (g0 = g)) as [->|Hne].
  - rewrite bool_decide_eq_true_2 by done.
    rewrite (bool_decide_eq_false_2 (g ∈ K)) by done.
    rewrite bool_decide_eq_true_2; [by rewrite app_nil_r|].
    apply list_elem_of_here.
  - rewrite bool_decide_eq_false_2 by done. simpl.
    destruct (decide (g0 ∈ K)) as [Hin|Hnin].
    + rewrite !bool_decide_eq_true_2; [done | | done].
      by apply list_elem_of_further.
    + rewrite !bool_decide_eq_false_2; [done | | done].
      rewrite not_elem_of_cons. done.
Qed.

(** The groups partition the resources. *)
Lemma members_partition gl l K :
  NoDup K → (∀ r, r ∈ l → groupValue gl r ∈ K) →
  concat ((λ g, members gl g l) <$> K) ≡ₚ l.
Proof.
  intros Hnd. induction l as [|r l IH]; intros Hall.
  - clear. induction K as [|g K IHK]; [done|]. csimpl. apply IHK.
  - erewrite list_fmap_ext; [|intros i g _; apply members_cons].
    rewrite concat_app_perm, concat_single by done.
    rewrite bool_decide_eq_true_2 by (apply Hall, list_elem_of_here).
    simpl. f_equiv. apply IH. intros r' Hr'. apply Hall.
    by apply list_elem_of_further.
Qed.

(** The rows of the groups that are not collapsed are the resources of
    these groups. *)
Lemma shown_partition gl l (C : gset string) K :
  NoDup K → (∀ r, r ∈ l → groupValue gl r ∈ K) →
  concat ((λ g, if bool_decide (g ∈ C) then [] else members gl g l) <$> K)
  ≡ₚ List.filter (λ r, bool_decide (groupValue gl r ∉ C)) l.
Proof.
  intros Hnd. induction l as [|r l IH]; intros Hall.
  - clear. induction K as [|g K IHK]; [done|]. csimpl.
    by destruct (bool_decide (g ∈ C)).
  - erewrite list_fmap_ext.
    2:{ intros i g _. rewrite members_cons.
        instantiate (1 := λ g,
          (if bool_decide (groupValue gl r = g)
           then (if bool_decide (groupValue gl r ∉ C) then [r] else [])
           else [])
          ++ (if bool_decide (g ∈ C) then [] else members gl g l)).
        simpl. repeat case_bool_decide; subst; simpl; try done;
          exfalso; auto. }
    rewrite concat_app_perm, concat_single by done.
    rewrite bool_decide_eq_true_2 by (apply Hall, list_elem_of_here).
    simpl. rewrite IH.
    + by destruct (bool_decide (groupValue gl r ∉ C)).
    + intros r' Hr'. apply Hall. by apply list_elem_of_further.
Qed.

Lemma groupKeys_cover gl l r : r ∈ l → groupValue gl r ∈ groupKeys gl l.
Proof. intros Hr. apply groupKeys_elem. eauto. Qed.

(** X16.  With a grouping key, the counts shown by the group headers add
    up to the number of filtered resources (collapsed groups included),
    and the resource rows shown are the filtered resources whose group is
    not collapsed, each one once; with no group collapsed every filtered
    resource is shown exactly once. *)
Theorem grouped_rows_and_counts filtered groupByLabel collapsed :
  groupByLabel ≠ "" →
  let items := displayItems filtered groupByLabel collapsed in
  sum_list (headerCounts items) = length filtered
  ∧ length (headerCounts items) = length (groupKeys groupByLabel filtered)
  ∧ resourceRows items
    ≡ₚ List.filter
         (λ r, bool_decide (groupValue groupByLabel r ∉ collapsed)) filtered
  ∧ ((∀ r, r ∈ filtered → groupValue groupByLabel r ∉ collapsed) →
     resourceRows items ≡ₚ filtered).
Proof.
  intros Hgl items.
  pose proof (groupKeys_NoDup groupByLabel filtered) as Hnd.
  assert (resourceRows items
          ≡ₚ List.filter
               (λ r, bool_decide (groupValue groupByLabel r ∉ collapsed))
               filtered) as Hrows.
  { unfold items. rewrite displayItems_blocks by done.
    unfold resourceRows. rewrite omap_concat, <-list_fmap_compose.
    erewrite list_fmap_ext;
      [|intros i g _; apply (resourceRows_block groupByLabel filtered)].
    apply shown_partition; [done|]. apply groupKeys_cover. }
  assert (headerCounts items
          = (λ g, length (members groupByLabel g filtered))
              <$> groupKeys groupByLabel filtered) as Hcounts.
  { unfold items. rewrite displayItems_blocks by done.
    unfold headerCounts. rewrite omap_concat, <-list_fmap_compose.
    erewrite list_fmap_ext;
      [|intros i g _; apply (headerCounts_block groupByLabel filtered)].
    generalize (groupKeys groupByLabel filtered). intros K.
    induction K as [|g K IH]; [done|]. csimpl. by rewrite IH. }
  split_and!.
  - rewrite Hcounts.
    rewrite <-(members_partition groupByLabel filtered
                 (groupKeys groupByLabel filtered)) at 2;
      [|done|apply groupKeys_cover].
    rewrite length_concat, <-list_fmap_compose. done.
  - by rewrite Hcounts, length_fmap.
  - done.
  - intros Hall. rewrite Hrows.
    assert (∀ l : list GceResource,
              (∀ r, r ∈ l → groupValue groupByLabel r ∉ collapsed) →
              List.filter
                (λ r, bool_decide (groupValue groupByLabel r ∉ collapsed)) l
              = l) as Hid.
    { intros l. induction l as [|r l IH]; intros Hl; [done|]. simpl.
      rewrite bool_decide_eq_true_2 by (apply Hl, list_elem_of_here).
      f_equal. apply IH. intros r' Hr'. apply Hl.
      by apply list_elem_of_further. }
    by rewrite Hid.
Qed.

Lemma grouped_rows_and_counts_witness :
  let filtered :=
    [mkResource "r1" "vm-1" [("env", "prod")];
     mkResource "r2" "vm-2" [];
     mkResource "r3" "vm-3" [("env", "dev")];
     mkResource "r4" "vm-4" [("env", "prod")]] in
  let items := displayItems filtered "env" {[ "prod" ]} in
  "env" ≠ ""
  ∧ headerCounts items = [1; 1; 2]
  ∧ sum_list (headerCounts items) = length filtered
  ∧ id <$> resourceRows items = ["r2"; "r3"].
Proof.
  intros filtered items. assert ("env" ≠ "") as Hgl by done.
  destruct (grouped_rows_and_counts filtered "env" {[ "prod" ]} Hgl)
    as (Hsum & _).
  split_and!; [done | reflexivity | exact Hsum | reflexivity].
Defined.

Lemma sum_differs_at (K : list string) (F G : string → nat) g :
  NoDup K → g ∈ K → (∀ g', g' ≠ g → F g' = G g') →
  list_sum (F <$> K) + G g = list_sum (G <$> K) + F g.
Proof.
  intros Hnd Hin Hsame. induction Hnd as [|g0 K Hg0 Hnd IH].
  - by apply not_elem_of_nil in Hin.
  - csimpl. apply elem_of_cons in Hin as [->|Hin].
    + assert (F <$> K = G <$> K) as ->; [|lia].
      apply list_fmap_ext. intros i g' Hg'. apply Hsame.
      intros ->. apply Hg0. by apply list_elem_of_lookup_2 in Hg'.
    + specialize (IH Hin). rewrite (Hsame g0); [lia|].
      intros ->. done.
Qed.

(** X17.  Toggling the collapse state of a group twice restores the set
    of collapsed groups, hence the display sequence; it changes the state
    of that group only; and collapsing an expanded group shortens the
    display sequence by exactly the number of its members, the header
    staying. *)
Theorem toggle_group_collapse filtered groupByLabel collapsed g :
  groupByLabel ≠ "" →
  toggleGroupCollapse g (toggleGroupCollapse g collapsed) = collapsed
  ∧ (g ∈ toggleGroupCollapse g collapsed ↔ g ∉ collapsed)
  ∧ (∀ g', g' ≠ g →
           (g' ∈ toggleGroupCollapse g collapsed ↔ g' ∈ collapsed)
           ∧ groupBlock groupByLabel filtered
               (toggleGroupCollapse g collapsed) g'
             = groupBlock groupByLabel filtered collapsed g')
  ∧ (g ∈ groupKeys groupByLabel filtered → g ∉ collapsed →
     length (displayItems filtered groupByLabel
               (toggleGroupCollapse g collapsed))
     + length (members groupByLabel g filtered)
     = length (displayItems filtered groupByLabel collapsed)).
Proof.
  intros Hgl.
  assert (g ∈ toggleGroupCollapse g collapsed ↔ g ∉ collapsed) as Hflip.
  { unfold toggleGroupCollapse. case_bool_decide; set_solver. }
  assert (∀ (C : gset string) g', g' ≠ g →
                g' ∈ toggleGroupCollapse g C ↔ g' ∈ C)
    as Hany.
  { intros C g' Hne. unfold toggleGroupCollapse.
    case_bool_decide; set_solver. }
  pose proof (Hany collapsed) as Hother.
  split_and!.
  - apply set_eq. intros g'. destruct (decide (g' = g)) as [->|Hne].
    + unfold toggleGroupCollapse at 1.
      destruct (decide (g ∈ collapsed)) as [Hin|Hout].
      * rewrite bool_decide_eq_false_2 by (rewrite Hflip; tauto).
        set_solver.
      * rewrite bool_decide_eq_true_2 by (by apply Hflip).
        set_solver.
    + by rewrite !Hany.
  - done.
  - intros g' Hne. split; [by apply Hother|].
    unfold groupBlock. by rewrite (bool_decide_ext _ _ (Hother g' Hne)).
  - intros Hin Hexp. rewrite !displayItems_blocks by done.
    rewrite !length_concat, <-!list_fmap_compose.
    pose proof (sum_differs_at (groupKeys groupByLabel filtered)
      (length ∘ groupBlock groupByLabel filtered
                  (toggleGroupCollapse g collapsed))
      (length ∘ groupBlock groupByLabel filtered collapsed) g
      (groupKeys_NoDup _ _) Hin) as Hsum.
    specialize (Hsum ltac:(intros g' Hne; unfold compose, groupBlock;
      by rewrite (bool_decide_ext _ _ (Hother g' Hne)))).
    unfold compose at 2 4 in Hsum. unfold groupBlock at 2 4 in Hsum.
    rewrite (bool_decide_eq_false_2 (g ∈ collapsed)) in Hsum by done.
    rewrite (bool_decide_eq_true_2 (g ∈ toggleGroupCollapse g collapsed))
      in Hsum by (by apply Hflip).
    simpl in Hsum. rewrite length_fmap in Hsum. lia.
Qed.

Lemma toggle_group_collapse_witness :
  let filtered :=
    [mkResource "r1" "vm-1" [("env", "prod")];
     mkResource "r2" "vm-2" [];
     mkResource "r4" "vm-4" [("env", "prod")]] in
  "env" ≠ ""
  ∧ "prod" ∈ groupKeys "env" filtered
  ∧ length (displayItems filtered "env" ∅) = 5
  ∧ length (displayItems filtered "env" (toggleGroupCollapse "prod" ∅)) = 3
  ∧ toggleGroupCollapse "prod" (toggleGroupCollapse "prod" ∅) = ∅.
Proof.
  intros filtered. assert ("env" ≠ "") as Hgl by done.
  destruct (toggle_group_collapse filtered "env" ∅ "prod" Hgl)
    as (Hinv & _).
  split_and!; [done | | reflexivity | reflexivity | exact Hinv].
  apply (bool_decide_unpack _). vm_compute. exact I.
Defined.

(** ** What a page holds *)

Lemma paginated_from items (p ipp : Z) :
  (1 ≤ p)%Z → (0 < ipp)%Z →
  paginatedDisplayItems items p ipp
  = take (Z.to_nat ipp) (drop (Z.to_nat ((p - 1) * ipp)) items).
Proof.
  intros Hp Hipp. unfold paginatedDisplayItems, startIndex.
  rewrite slice_take_drop by nia. do 2 f_equal. lia.
Qed.

Lemma paginated_length items (p ipp : Z) :
  (1 ≤ p)%Z → (0 < ipp)%Z →
  Z.of_nat (length (paginatedDisplayItems items p ipp))
  = Z.max 0 (Z.min ipp (Z.of_nat (length items) - (p - 1) * ipp)).
Proof.
  intros Hp Hipp. rewrite paginated_from by done.
  rewrite length_take, length_drop. nia.
Qed.

(** X18.  For a positive page size, every page from 1 to [totalPages]
    holds at least one row and at most [itemsPerPage]; every page before
    the last one is full; a page past the last one is empty; and the row
    at index [i] of the display sequence is the row at offset
    [i mod itemsPerPage] of page [i / itemsPerPage + 1]. *)
Theorem page_contents (items : list DisplayItem) (ipp : Z) :
  (0 < ipp)%Z →
  let pages := totalPages (Z.of_nat (length items)) ipp in
  (∀ p, (1 ≤ p ≤ pages)%Z →
        paginatedDisplayItems items p ipp ≠ []
        ∧ (Z.of_nat (length (paginatedDisplayItems items p ipp)) ≤ ipp)%Z)
  ∧ (∀ p, (1 ≤ p < pages)%Z →
          Z.of_nat (length (paginatedDisplayItems items p ipp)) = ipp)
  ∧ (∀ p, (1 ≤ p)%Z → (pages < p)%Z →
          paginatedDisplayItems items p ipp = [])
  ∧ (∀ (i : nat) x, items !! i = Some x →
       (1 ≤ Z.of_nat i / ipp + 1 ≤ pages)%Z
       ∧ paginatedDisplayItems items (Z.of_nat i / ipp + 1) ipp
           !! Z.to_nat (Z.of_nat i mod ipp) = Some x).
Proof.
  intros Hipp pages.
  pose proof (totalPages_bounds (Z.of_nat (length items)) ipp
                ltac:(lia) Hipp) as (Hp0 & Hup & Hlow).
  fold pages in Hp0, Hup, Hlow.
  split_and!.
  - intros p [Hp1 Hp2].
    pose proof (paginated_length items p ipp Hp1 Hipp) as Hlen.
    split; [|lia].
    intros Hnil. rewrite Hnil in Hlen. simpl in Hlen.
    destruct Hlow as [Hlow|[_ Hz]]; [|lia]. nia.
  - intros p [Hp1 Hp2].
    rewrite (paginated_length items p ipp Hp1 Hipp). nia.
  - intros p Hp1 Hp2. apply length_zero_iff_nil.
    pose proof (paginated_length items p ipp Hp1 Hipp) as Hlen. nia.
  - intros i x Hix.
    pose proof (lookup_lt_Some _ _ _ Hix) as Hlt.
    pose proof (Z.div_mod (Z.of_nat i) ipp ltac:(lia)) as Hdm.
    pose proof (Z.mod_pos_bound (Z.of_nat i) ipp Hipp) as Hmod.
    pose proof (Z.div_pos (Z.of_nat i) ipp ltac:(lia) Hipp) as Hdiv.
    split.
    + split; [lia|].
      destruct Hlow as [Hlow|[Hz _]]; [|lia].
      destruct (decide (Z.of_nat i / ipp + 1 ≤ pages)%Z); [done|].
      exfalso. nia.
    + rewrite paginated_from by lia.
      rewrite lookup_take_lt by lia. rewrite lookup_drop.
      rewrite <-Hix. f_equal.
      replace (Z.of_nat i / ipp + 1 - 1)%Z with (Z.of_nat i / ipp)%Z by lia.
      rewrite <-Z2Nat.inj_add by nia.
      rewrite <-(Nat2Z.id i) at 3. f_equal. lia.
Qed.

Lemma page_contents_witness :
  let items := resource <$> [mkResource "r1" "a" []; mkResource "r2" "b" [];
                             mkResource "r3" "c" []] in
  (0 < 2)%Z
  ∧ totalPages (Z.of_nat (length items)) 2 = 2%Z
  ∧ paginatedDisplayItems items 2 2 ≠ []
  ∧ paginatedDisplayItems items 3 2 = [].
Proof.
  intros items. assert (0 < 2)%Z as Hipp by lia.
  destruct (page_contents items 2 Hipp) as (Hin & _ & Hpast & _).
  split_and!; [done | reflexivity | | ].
  - apply (Hin 2%Z). vm_compute. split; discriminate.
  - apply (Hpast 3%Z); [lia | vm_compute; reflexivity].
Defined.

(** X19.  The page-validity effect is idempotent and leaves a page that
    is at most [totalPages] whenever there is a page at all; so, for a
    current page that is at least 1 and a display sequence that is not
    empty, the page shown once the effect has run holds a row. *)
Theorem page_effect_lands (items : list DisplayItem) (cur ipp : Z) :
  (0 < ipp)%Z →
  (1 ≤ cur)%Z →
  let pages := totalPages (Z.of_nat (length items)) ipp in
  pageEffect (pageEffect cur pages) pages = pageEffect cur pages
  ∧ (1 ≤ pageEffect cur pages)%Z
  ∧ (items ≠ [] →
     (pageEffect cur pages ≤ pages)%Z
     ∧ paginatedDisplayItems items (pageEffect cur pages) ipp ≠ [])
  ∧ (items = [] →
     pageEffect cur pages = cur
     ∧ paginatedDisplayItems items (pageEffect cur pages) ipp = []).
Proof.
  intros Hipp Hcur pages.
  pose proof (totalPages_bounds (Z.of_nat (length items)) ipp
                ltac:(lia) Hipp) as (Hp0 & Hup & Hlow).
  fold pages in Hp0, Hup, Hlow.
  assert (pageEffect cur pages = cur ∧ (cur ≤ pages ∨ pages = 0)%Z
          ∨ pageEffect cur pages = 1%Z ∧ (0 < pages)%Z) as Hcases.
  { unfold pageEffect. repeat case_bool_decide; simpl; lia. }
  assert (pageEffect 1 pages = 1%Z) as Hone.
  { unfold pageEffect. repeat case_bool_decide; simpl; lia. }
  split_and!.
  - destruct Hcases as [[Heq Hle]|[Heq Hpos]]; rewrite Heq; [|done].
    unfold pageEffect. repeat case_bool_decide; simpl; lia.
  - destruct Hcases as [[Heq _]|[Heq _]]; lia.
  - intros Hne.
    assert (0 < length items) as Hlen
      by (destruct items; [done | simpl; lia]).
    assert (0 < pages)%Z as Hpos by nia.
    assert (1 ≤ pageEffect cur pages ≤ pages)%Z as Hin
      by (destruct Hcases as [[Heq Hle]|[Heq _]]; lia).
    split; [lia|].
    pose proof (paginated_length items _ ipp (proj1 Hin) Hipp) as Hl.
    intros Hnil. rewrite Hnil in Hl. simpl in Hl.
    destruct Hlow as [Hlow|[_ Hz]]; [|lia]. nia.
  - intros ->. simpl in *.
    assert (pages = 0%Z) as Hz by (destruct Hlow as [?|[_ ?]]; [nia|done]).
    split.
    + destruct Hcases as [[Heq _]|[_ ?]]; [done|lia].
    + apply length_zero_iff_nil.
      assert (1 ≤ pageEffect cur pages)%Z as H1
        by (destruct Hcases as [[Heq _]|[Heq _]]; lia).
      pose proof (paginated_length [] _ ipp H1 Hipp) as Hl.
      simpl in Hl. nia.
Qed.

Lemma page_effect_lands_witness :
  let items := resource <$> [mkResource "r1" "a" []; mkResource "r2" "b" [];
                             mkResource "r3" "c" []] in
  (0 < 2)%Z ∧ (1 ≤ 5)%Z
  ∧ pageEffect 5 (totalPages (Z.of_nat (length items)) 2) = 1%Z
  ∧ paginatedDisplayItems items
      (pageEffect 5 (totalPages (Z.of_nat (length items)) 2)) 2 ≠ [].
Proof.
  intros items. assert (0 < 2)%Z as Hipp by lia.
  assert (1 ≤ 5)%Z as Hcur by lia.
  destruct (page_effect_lands items 5 2 Hipp Hcur) as (_ & _ & Hne & _).
  split_and!; [done | done | reflexivity | ].
  apply Hne. discriminate.
Defined.

(** ** Selection in the resource table *)

Lemma filter_all {A : Type} (P : A → bool) (l : list A) :
  (∀ x, x ∈ l → P x = true) → List.filter P l = l.
Proof.
  induction l as [|x l IH]; intros Hall; [done|]. simpl.
  rewrite (Hall x) by apply list_elem_of_here. f_equal. apply IH.
  intros y Hy. apply Hall. by apply list_elem_of_further.
Qed.

Lemma elem_of_filter_bool {A : Type} (P : A → bool) (l : list A) x :
  x ∈ List.filter P l ↔ x ∈ l ∧ P x = true.
Proof.
  induction l as [|y l IH]; simpl.
  - split; [intros Hx; by apply not_elem_of_nil in Hx|intros [Hx _]; done].
  - destruct (P y) eqn:Hy; rewrite ?elem_of_cons, IH; split.
    + intros [->|[? ?]]; auto.
    + intros [[->|?] ?]; auto.
    + intros [? ?]; auto.
    + intros [[->|?] ?]; [congruence|auto].
Qed.

Lemma filter_sublist {A : Type} (P : A → bool) (l : list A) :
  List.filter P l `sublist_of` l.
Proof.
  induction l as [|x l IH]; simpl; [constructor|].
  destruct (P x); by constructor.
Qed.

Lemma selected_none resources : selectedResourcesList resources ∅ = [].
Proof.
  unfold selectedResourcesList.
  induction resources as [|r l IH]; [done|]. simpl.
  by rewrite bool_decide_eq_false_2 by set_solver.
Qed.

(** X20.  For a non-empty list of filtered resources with pairwise
    different ids, "select all" on an empty selection selects every
    filtered resource, and on that selection clears it; the test looks at
    the size of the selection only: any selection of another size is
    replaced by all filtered ids, and any selection of that size is
    cleared. *)
Theorem toggle_select_all filtered :
  NoDup (id <$> filtered) →
  filtered ≠ [] →
  let all : gset string := list_to_set (id <$> filtered) in
  toggleSelectAll filtered ∅ = all
  ∧ toggleSelectAll filtered all = ∅
  ∧ selectedResourcesList filtered all = filtered
  ∧ (∀ prev, size prev ≠ length filtered →
             toggleSelectAll filtered prev = all)
  ∧ (∀ prev, size prev = length filtered →
             toggleSelectAll filtered prev = ∅).
Proof.
  intros Hnd Hne all.
  assert (0 < length filtered) as Hlen
    by (destruct filtered; [done | simpl; lia]).
  assert (size all = length filtered) as Hsize.
  { unfold all. rewrite size_list_to_set by done. apply length_fmap. }
  assert (∀ prev, size prev ≠ length filtered →
                  toggleSelectAll filtered prev = all) as Hother.
  { intros prev Hs. unfold toggleSelectAll.
    rewrite (bool_decide_eq_false_2 (size prev = _)) by done.
    by rewrite andb_false_r. }
  assert (∀ prev, size prev = length filtered →
                  toggleSelectAll filtered prev = ∅) as Hsame.
  { intros prev Hs. unfold toggleSelectAll.
    by rewrite !bool_decide_eq_true_2 by lia. }
  split_and!; [| |  | done | done].
  - apply Hother. rewrite size_empty. lia.
  - by apply Hsame.
  - apply filter_all. intros r Hr. apply bool_decide_eq_true_2.
    unfold all. apply elem_of_list_to_set, list_elem_of_fmap. eauto.
Qed.

Lemma toggle_select_all_witness :
  let filtered := [mkResource "r1" "a" []; mkResource "r2" "b" []] in
  NoDup (id <$> filtered) ∧ filtered ≠ []
  ∧ toggleSelectAll filtered ∅ = {[ "r1"; "r2" ]}
  ∧ toggleSelectAll filtered (toggleSelectAll filtered ∅) = ∅.
Proof.
  intros filtered.
  assert (NoDup (id <$> filtered)) as Hnd.
  { apply (bool_decide_unpack _). vm_compute. exact I. }
  assert (filtered ≠ []) as Hne by discriminate.
  destruct (toggle_select_all filtered Hnd Hne) as (Hall & Hclear & _).
  split_and!; [done | done | | ].
  - rewrite Hall. simpl. set_solver.
  - rewrite Hall. exact Hclear.
Defined.

(** X21.  Toggling the selection of an id twice restores the selection;
    one toggle flips the membership of that id only and changes the size
    of the selection by one; and the selected resources are always a
    subsequence of the resources, in their order: those whose id is in
    the selection. *)
Theorem toggle_select resources sel i :
  toggleSelect i (toggleSelect i sel) = sel
  ∧ (i ∈ toggleSelect i sel ↔ i ∉ sel)
  ∧ (∀ j, j ≠ i → (j ∈ toggleSelect i sel ↔ j ∈ sel))
  ∧ size (toggleSelect i sel)
    = (if decide (i ∈ sel) then size sel - 1 else size sel + 1)
  ∧ selectedResourcesList resources (toggleSelect i sel)
      `sublist_of` resources
  ∧ (∀ r, r ∈ selectedResourcesList resources (toggleSelect i sel)
          ↔ r ∈ resources
            ∧ (if decide (id r = i) then i ∉ sel else id r ∈ sel)).
Proof.
  assert (∀ C : gset string, i ∈ toggleSelect i C ↔ i ∉ C) as Hflip.
  { intros C. unfold toggleSelect. case_bool_decide; set_solver. }
  assert (∀ (C : gset string) j, j ≠ i → j ∈ toggleSelect i C ↔ j ∈ C)
    as Hother.
  { intros C j Hne. unfold toggleSelect. case_bool_decide; set_solver. }
  split_and!.
  - apply set_eq. intros j. destruct (decide (j = i)) as [->|Hne].
    + rewrite Hflip, Hflip. destruct (decide (i ∈ sel)); tauto.
    + by rewrite !Hother.
  - apply Hflip.
  - apply Hother.
  - unfold toggleSelect. destruct (decide (i ∈ sel)) as [Hin|Hout].
    + rewrite bool_decide_eq_true_2 by done.
      rewrite size_difference by set_solver. by rewrite size_singleton.
    + rewrite bool_decide_eq_false_2 by done.
      rewrite size_union by set_solver. by rewrite size_singleton.
  - apply filter_sublist.
  - intros r. unfold selectedResourcesList.
    rewrite elem_of_filter_bool, bool_decide_eq_true.
    destruct (decide (id r = i)) as [->|Hne].
    + by rewrite Hflip.
    + by rewrite Hother.
Qed.

Section Selection.
Context `{RegExpEngine} `{Validator}.

(** X22.  The studio works on the selection of the table.  When the ids
    of the resources are pairwise different and every selected id is the
    id of a resource, the studio receives as many resources as the
    selection bar counts; whatever the studio hands to [onApply] is keyed
    by selected ids only, and holds for each selected resource with a
    change its candidate labels; and once the updates have been handed on
    the selection is empty, so the studio has nothing left to apply. *)
Theorem selection_feeds_studio resources sel s :
  NoDup (id <$> resources) →
  sel ⊆ list_to_set (id <$> resources) →
  let chosen := selectedResourcesList resources sel in
  length chosen = size sel
  ∧ NoDup (id <$> chosen)
  ∧ (∀ i m, JsMap.get i (handleApply chosen s) = Some m →
            i ∈ sel
            ∧ ∃ r, r ∈ resources ∧ id r = i ∧ m = candidate s r
                   ∧ changesOf s r ≠ [])
  ∧ (∀ r, r ∈ resources → id r ∈ sel → changesOf s r ≠ [] →
          JsMap.get (id r) (handleApply chosen s) = Some (candidate s r))
  ∧ (∀ updates : list (string * gmap string string),
       let after := executeBulkStudioUpdates true updates sel in
       after.1 = Some updates
       ∧ selectedResourcesList resources after.2 = []
       ∧ applyEnabled (selectedResourcesList resources after.2) s = false)
  ∧ (∀ updates : list (string * gmap string string),
       executeBulkStudioUpdates false updates sel = (None, sel)).
Proof.
  intros Hnd Hsub chosen.
  assert (chosen `sublist_of` resources) as Hsl by apply filter_sublist.
  assert (NoDup (id <$> chosen)) as Hnd'.
  { apply (sublist_NoDup _ (id <$> resources)); [done|].
    by apply fmap_sublist. }
  assert (∀ r, r ∈ chosen ↔ r ∈ resources ∧ id r ∈ sel) as Hchosen.
  { intros r. unfold chosen, selectedResourcesList.
    by rewrite elem_of_filter_bool, bool_decide_eq_true. }
  split_and!.
  - rewrite <-(length_fmap id chosen).
    rewrite <-(size_list_to_set (C:=gset string)) by done.
    f_equal. apply set_eq. intros i.
    rewrite elem_of_list_to_set, list_elem_of_fmap. split.
    + intros (r & -> & Hr). by apply Hchosen in Hr as [_ ?].
    + intros Hi. pose proof (Hsub i Hi) as Hi'.
      apply elem_of_list_to_set, list_elem_of_fmap in Hi'
        as (r & -> & Hr).
      exists r. split; [done|]. by apply Hchosen.
  - done.
  - intros i m. rewrite handleApply_get.
    destruct (JsMap.get i (previewData chosen s)) as [e|] eqn:Hg; [|done].
    intros [= <-]. apply previewData_get in Hg as (r & Hr & He).
    apply Hchosen in Hr as [Hr Hin].
    assert (changesOf s r ≠ []) as Hch.
    { intros Hch. apply entryFor_None in Hch. congruence. }
    rewrite entryFor_Some in He by done. injection He as <- <-.
    split; [done|]. exists r. done.
  - intros r Hr Hin Hch. rewrite handleApply_get.
    rewrite previewData_NoDup by done.
    rewrite get_omap_entryFor by (done || by apply Hchosen).
    by rewrite entryFor_Some.
  - intros updates after. simpl. rewrite selected_none.
    split_and!; [done | done |].
    unfold applyEnabled. simpl. by rewrite orb_true_r.
  - done.
Qed.

End Selection.

Lemma selection_feeds_studio_witness :
  let resources :=
    [mkResource "r1" "vm-1" [("env", "dev")];
     mkResource "r2" "vm-2" [];
     mkResource "r3" "vm-3" [("env", "prod")]] in
  let sel : gset string := {[ "r1"; "r3" ]} in
  let s := withStatic [("env", "prod")] in
  NoDup (id <$> resources)
  ∧ sel ⊆ list_to_set (id <$> resources)
  ∧ length (selectedResourcesList resources sel) = size sel
  ∧ JsMap.keys (handleApply (selectedResourcesList resources sel) s)
    = ["r1"].
Proof.
  intros resources sel s.
  assert (NoDup (id <$> resources)) as Hnd.
  { apply (bool_decide_unpack _). vm_compute. exact I. }
  assert (sel ⊆ list_to_set (id <$> resources)) as Hsub.
  { unfold sel, resources. simpl. set_solver. }
  destruct (selection_feeds_studio resources sel s Hnd Hsub) as (Hlen & _).
  split_and!; [done | done | exact Hlen | vm_compute; reflexivity].
Defined.

(** ** The keys offered for grouping *)

Lemma setAdd_spec k keys :
  NoDup keys →
  NoDup (setAdd k keys) ∧ ∀ k', k' ∈ setAdd k keys ↔ k' ∈ keys ∨ k' = k.
Proof.
  intros Hnd. unfold setAdd. case_bool_decide as Hin.
  - split; [done|]. intros k'. split; [by left|].
    by intros [?| ->].
  - split.
    + apply NoDup_app. split_and!; [done | | apply NoDup_singleton].
      intros x Hx Hx'. by apply list_elem_of_singleton in Hx' as ->.
    + intros k'. by rewrite elem_of_app, list_elem_of_singleton.
Qed.

Lemma setAdd_fold ks keys :
  NoDup keys →
  NoDup (foldl (λ keys k, setAdd k keys) keys ks)
  ∧ ∀ k', k' ∈ foldl (λ keys k, setAdd k keys) keys ks
          ↔ k' ∈ keys ∨ k' ∈ ks.
Proof.
  revert keys. induction ks as [|k ks IH]; intros keys Hnd; simpl.
  - split; [done|]. intros k'. split; [by left|].
    intros [?|Hin]; [done|]. by apply not_elem_of_nil in Hin.
  - destruct (setAdd_spec k keys Hnd) as [Hnd' Hel].
    destruct (IH _ Hnd') as [Hnd'' Hel']. split; [done|].
    intros k'. rewrite Hel', Hel, elem_of_cons. tauto.
Qed.

Lemma collect_keys objectKeys (resources : list GceResource) keys :
  NoDup keys →
  let all := foldl (λ keys r, foldl (λ keys k, setAdd k keys) keys
                                (objectKeys (labels r))) keys resources in
  NoDup all
  ∧ ∀ k, k ∈ all
         ↔ k ∈ keys ∨ ∃ r, r ∈ resources ∧ k ∈ objectKeys (labels r).
Proof.
  revert keys. induction resources as [|r l IH]; intros keys Hnd; simpl.
  - split; [done|]. intros k. split; [by left|].
    intros [?|(r & Hr & _)]; [done|]. by apply not_elem_of_nil in Hr.
  - destruct (setAdd_fold (objectKeys (labels r)) keys Hnd) as [Hnd' Hel].
    destruct (IH _ Hnd') as [Hnd'' Hel']. split; [done|].
    intros k. rewrite Hel', Hel. split.
    + intros [[?|Hk]|(r' & Hr' & Hk)]; [by left | |].
      * right. exists r. split; [apply list_elem_of_here|done].
      * right. exists r'. split; [by apply list_elem_of_further|done].
    + intros [?|(r' & Hr' & Hk)]; [by left; left|].
      apply elem_of_cons in Hr' as [->|Hr']; [by left; right|].
      right. eauto.
Qed.

Lemma ownKeys_enumerates : enumeratesKeys ownKeys.
Proof.
  intros m k. unfold ownKeys. rewrite list_elem_of_fmap. split.
  - intros ([k' v] & -> & Hin). apply elem_of_map_to_list in Hin. eauto.
  - intros [v Hv]. exists (k, v). split; [done|].
    by apply elem_of_map_to_list.
Qed.

(** X23.  The keys offered in the "Group By" list are the label keys
    that occur on at least one resource, each one once, in ascending
    order by code units; the list does not depend on the order in which
    the keys of a label record are enumerated. *)
Theorem available_label_keys objectKeys resources :
  enumeratesKeys objectKeys →
  let keys := availableLabelKeys objectKeys resources in
  StronglySorted String.le keys
  ∧ NoDup keys
  ∧ (∀ k, k ∈ keys ↔ ∃ r, r ∈ resources ∧ is_Some (labels r !! k))
  ∧ (∀ objectKeys', enumeratesKeys objectKeys' →
                    availableLabelKeys objectKeys' resources = keys).
Proof.
  intros Henum keys.
  assert (∀ oks, enumeratesKeys oks →
     let all := foldl (λ keys r, foldl (λ keys k, setAdd k keys) keys
                                   (oks (labels r))) [] resources in
     NoDup all
     ∧ ∀ k, k ∈ all ↔ ∃ r, r ∈ resources ∧ is_Some (labels r !! k))
    as Hall.
  { intros oks Hoks all.
    destruct (collect_keys oks resources [] (NoDup_nil_2)) as [Hnd Hel].
    split; [done|]. intros k. unfold all. rewrite Hel. split.
    - intros [Hk|(r & Hr & Hk)]; [by apply not_elem_of_nil in Hk|].
      exists r. split; [done|]. by apply Hoks.
    - intros (r & Hr & Hk). right. exists r. split; [done|].
      by apply Hoks. }
  destruct (Hall objectKeys Henum) as [Hnd Hel].
  split_and!.
  - apply sortKeys_sorted.
  - unfold keys, availableLabelKeys. by rewrite sortKeys_perm.
  - intros k. unfold keys, availableLabelKeys. by rewrite sortKeys_perm.
  - intros oks Hoks. destruct (Hall oks Hoks) as [Hnd' Hel'].
    unfold keys, availableLabelKeys. apply sortKeys_unique; [done..|].
    intros k. by rewrite Hel, Hel'.
Qed.

Lemma available_label_keys_witness :
  let resources :=
    [mkResource "r1" "vm-1" [("team", "a"); ("env", "dev")];
     mkResource "r2" "vm-2" [];
     mkResource "r3" "vm-3" [("env", "prod"); ("app", "web")]] in
  enumeratesKeys ownKeys
  ∧ availableLabelKeys ownKeys resources = ["app"; "env"; "team"]
  ∧ NoDup (availableLabelKeys ownKeys resources).
Proof.
  intros resources.
  destruct (available_label_keys ownKeys resources ownKeys_enumerates)
    as (_ & Hnd & _).
  split_and!; [apply ownKeys_enumerates | vm_compute; reflexivity | exact Hnd].
Defined.

(** ** Removing rows *)

Lemma filterIndexed_all {A : Type} (keep : A → nat → bool) (p : list A) :
  (∀ i x, p !! i = Some x → keep x i = true) → filterIndexed keep p = p.
Proof.
  unfold filterIndexed. revert keep.
  induction p as [|a p IH]; intros keep Hall; [done|].
  rewrite imap_cons. csimpl. rewrite (Hall 0 a) by done. csimpl. f_equal.
  apply (IH (λ x i, keep x (S i))). intros i x Hx. by apply (Hall (S i)).
Qed.

Lemma removeAt_delete {A : Type} (idx : nat) (p : list A) :
  removeAt idx p = delete idx p.
Proof.
  unfold removeAt. revert idx. induction p as [|a p IH]; intros idx; [done|].
  unfold filterIndexed. rewrite imap_cons. destruct idx as [|idx]; csimpl.
  - apply (filterIndexed_all (λ _ i, negb (S i =? 0))). done.
  - f_equal. apply (IH idx).
Qed.

Lemma removeAt_ge {A : Type} (idx : nat) (p : list A) :
  length p ≤ idx → removeAt idx p = p.
Proof.
  intros Hge. apply filterIndexed_all. intros i x Hx.
  apply lookup_lt_Some in Hx. apply negb_true_iff, Nat.eqb_neq. lia.
Qed.

Lemma removeAt_last {A : Type} (p : list A) a :
  removeAt (length p) (p ++ [a]) = p.
Proof. by rewrite removeAt_delete, delete_middle, app_nil_r. Qed.

Lemma removeAt_middle {A : Type} (idx : nat) (p : list A) a :
  p !! idx = Some a → p = take idx p ++ a :: drop (S idx) p
                      ∧ removeAt idx p = take idx p ++ drop (S idx) p.
Proof.
  intros Ha. split; [by rewrite take_drop_middle|].
  by rewrite removeAt_delete, delete_take_drop.
Qed.

Lemma foldl_removeAt_id {A B : Type} (f : A → B → A) (a : A) (l : list B)
    idx b :
  l !! idx = Some b → (∀ a', f a' b = a') →
  foldl f a (removeAt idx l) = foldl f a l.
Proof.
  intros Hb Hid. destruct (removeAt_middle idx l b Hb) as [Hl ->].
  rewrite Hl at 3. rewrite !foldl_app. simpl. by rewrite Hid.
Qed.

Lemma existsb_removeAt_false {A : Type} (f : A → bool) (l : list A) idx b :
  l !! idx = Some b → f b = false →
  existsb f (removeAt idx l) = existsb f l.
Proof.
  intros Hb Hf. destruct (removeAt_middle idx l b Hb) as [Hl ->].
  rewrite Hl at 3. rewrite !existsb_app. simpl. by rewrite Hf.
Qed.

Section RemoveRows.
Context `{RegExpEngine} `{Validator}.

(** X24.  The remove button of a row deletes the row at that index and
    keeps the others in their order; with an index past the end nothing
    changes; removing the row that an "Add" button has just appended
    gives back the rows as they were; and removing a blank row, wherever
    it stands, leaves the preview map and the gate as they were (in every
    mode). *)
Theorem remove_row sel s idx :
  (∀ (A : Type) (p : list A),
     removeAt idx p = take idx p ++ drop (S idx) p
     ∧ (length p ≤ idx → removeAt idx p = p)
     ∧ (∀ a, removeAt (length p) (p ++ [a]) = p))
  ∧ staticLabels (removeField (length (staticLabels s)) (addField s))
    = staticLabels s
  ∧ mappings (removeMapping (length (mappings s)) (addMapping s))
    = mappings s
  ∧ (staticLabels s !! idx = Some ("", "") →
     previewData sel (removeField idx s) = previewData sel s
     ∧ isValid (removeField idx s) = isValid s)
  ∧ (∀ position, mappings s !! idx = Some (position, "") →
     previewData sel (removeMapping idx s) = previewData sel s
     ∧ isValid (removeMapping idx s) = isValid s)
  ∧ (∀ g, regexGroups s !! idx = Some (g, "") →
     previewData sel (removeGroup idx s) = previewData sel s
     ∧ isValid (removeGroup idx s) = isValid s)
  ∧ (keysToRemove s !! idx = Some "" →
     previewData sel (removeKey idx s) = previewData sel s
     ∧ isValid (removeKey idx s) = isValid s).
Proof.
  split_and!.
  - intros A p. split_and!.
    + by rewrite removeAt_delete, delete_take_drop.
    + apply removeAt_ge.
    + apply removeAt_last.
  - simpl. apply removeAt_last.
  - simpl. apply removeAt_last.
  - intros Hrow. split.
    + apply previewData_ext. intros r. unfold evalResource, compiledRegex.
      simpl. destruct (mode s); try done.
      apply (foldl_removeAt_id _ _ _ _ _ Hrow). by intros [m chs].
    + unfold isValid. simpl. destruct (mode s); try done.
      pose proof (removeAt_middle idx _ _ Hrow) as Hmid. revert Hmid.
      generalize (take idx (staticLabels s)).
      generalize (drop (S idx) (staticLabels s)).
      intros l2 l1 [Hl Hr]. rewrite Hr, Hl.
      unfold validRows, hasErrors, staticLabelErrors.
      rewrite !List.filter_app, !fmap_app, !existsb_app. simpl.
      done.
  - intros position Hrow. split.
    + apply previewData_ext. intros r. unfold evalResource, compiledRegex.
      simpl. destruct (mode s); try done.
      apply (foldl_removeAt_id _ _ _ _ _ Hrow). intros [m chs].
      unfold patternStep. by destruct (Js.at_index _ _).
    + unfold isValid. simpl. destruct (mode s); try done.
      by apply (existsb_removeAt_false _ _ _ _ Hrow).
  - intros g Hrow. split.
    + apply previewData_ext. intros r. unfold evalResource, compiledRegex.
      simpl. destruct (mode s); try done.
      destruct (newRegExp (regexPattern s)) as [re|]; [|done].
      destruct (String_match (name r) re) as [match_|]; [|done].
      apply (foldl_removeAt_id _ _ _ _ _ Hrow). intros [m chs].
      unfold regexStep. by destruct (Js.at_index _ _) as [[?|]|].
    + unfold isValid. simpl. destruct (mode s); try done.
      by apply (existsb_removeAt_false _ _ _ _ Hrow).
  - intros Hrow. split.
    + apply previewData_ext. intros r. unfold evalResource, compiledRegex.
      simpl. destruct (mode s); try done.
      apply (foldl_removeAt_id _ _ _ _ _ Hrow). by intros [m chs].
    + unfold isValid. simpl. destruct (mode s); try done.
      by apply (existsb_removeAt_false _ _ _ _ Hrow).
Qed.

(** X25.  The tokenization preview shows the tokens of the first
    selected resource, and they mean what PATTERN does to that resource:
    a mapping with a non-empty key whose position is the index of a
    non-empty token shown sets that key to the token shown, unless a
    later mapping names the key again. *)
Theorem sample_tokens_preview s r rest (idx : nat) token :
  mode s = PATTERN →
  name r ≠ "" →
  sampleTokens (r :: rest) (delimiter s) !! idx = Some token →
  token ≠ "" →
  sampleTokens (r :: rest) (delimiter s) = Js.split (name r) (delimiter s)
  ∧ ∀ l1 l2 key,
      mappings s = l1 ++ (Z.of_nat idx, key) :: l2 →
      key ≠ "" →
      key ∉ l2.*2 →
      candidate s r !! key = Some token.
Proof.
  intros Hm Hname Htok Hne.
  assert (sampleTokens (r :: rest) (delimiter s)
          = Js.split (name r) (delimiter s)) as Hsample.
  { unfold sampleTokens, sampleName.
    apply truthy_nonempty in Hname. by rewrite Hname. }
  split; [done|]. intros l1 l2 key Hl Hkey Hlater.
  assert (mode s ≠ CLEANUP) as Hm' by (by rewrite Hm).
  rewrite candidate_rules by done. unfold appliedRules. rewrite Hm, Hl.
  apply (applyAll_omap_last _ snd); [apply patternRule_key | | done].
  unfold patternRule, Js.at_index. simpl.
  rewrite decide_True by lia. rewrite Nat2Z.id, <-Hsample, Htok.
  apply truthy_nonempty in Hkey, Hne. by rewrite Hkey, Hne.
Qed.

End RemoveRows.

Lemma sample_tokens_preview_witness :
  let s := withPattern "-" [(2%Z, "app"); (0%Z, "env")] in
  let r := mkResource "r1" "prod-eu-web" [] in
  mode s = PATTERN ∧ name r ≠ ""
  ∧ sampleTokens [r] (delimiter s) = ["prod"; "eu"; "web"]
  ∧ candidate s r !! "app" = Some "web".
Proof.
  intros s r. assert (mode s = PATTERN) as Hm by done.
  assert (name r ≠ "") as Hname by done.
  assert (sampleTokens [r] (delimiter s) !! 2 = Some "web") as Htok
    by reflexivity.
  assert ("web" ≠ "") as Hne by done.
  destruct (sample_tokens_preview s r [] 2 "web" Hm Hname Htok Hne)
    as [_ Hset].
  split_and!; [done | done | reflexivity |].
  apply (Hset [] [(0%Z, "env")] "app"); [reflexivity | done |].
  apply (bool_decide_unpack _). vm_compute. exact I.
Defined.

(** ** Sorting by a column *)

(** X26.  A click on a column header sorts by that column and copies the
    other fields of the filter configuration; the direction is ascending
    unless the configuration was already sorted by that column in
    ascending order; so repeated clicks on one header alternate between
    the two directions, and a click on another header starts
    ascending. *)
Theorem handle_sort_alternates {R : Type} (key : string)
    (filterConfig : FilterConfig R) :
  sortKey (handleSort key filterConfig) = Some key
  ∧ others (handleSort key filterConfig) = others filterConfig
  ∧ sortDirection (handleSort key (handleSort key filterConfig))
    ≠ sortDirection (handleSort key filterConfig)
  ∧ handleSort key (handleSort key (handleSort key filterConfig))
    = handleSort key filterConfig
  ∧ (∀ key', key' ≠ key →
       sortDirection (handleSort key' (handleSort key filterConfig)) = asc)
  ∧ (sortDirection (handleSort key filterConfig) = desc
     ↔ sortKey filterConfig = Some key ∧ sortDirection filterConfig = asc).
Proof.
  destruct filterConfig as [k d o]. unfold handleSort. simpl.
  split_and!; [done | done | | | |].
  - rewrite (bool_decide_eq_true_2 (Some key = Some key)) by done.
    destruct (bool_decide (k = Some key)), d; simpl; done.
  - rewrite !(bool_decide_eq_true_2 (Some key = Some key)) by done.
    destruct (bool_decide (k = Some key)), d; simpl; done.
  - intros key' Hne.
    rewrite (bool_decide_eq_false_2 (Some key = Some key')) by congruence.
    done.
  - case_bool_decide as Hk; destruct d; simpl; split; try done;
      intros [? ?]; done.
Qed.

(** ** Custom templates *)

(** X27.  A template is saved only when its label, key and value are all
    non-empty: otherwise the form and the storage are left alone.  A
    saved template goes to the end of the list, the form is reset and
    closed, and the list written to the storage is the list of the
    state, also after a deletion.  So every custom template stays
    complete, deleting the template just saved gives back the list as
    it was, and a second save right after a save does nothing. *)
Theorem custom_templates_complete (f : TemplateForm) (idx : nat) :
  Forall complete (customTemplates f) →
  let saved := saveCustomTemplate f in
  let deleted := deleteCustomTemplate idx f in
  Forall complete (customTemplates saved.1)
  ∧ Forall complete (customTemplates deleted.1)
  ∧ (¬ complete (newTemplate f) → saved = (f, None))
  ∧ (complete (newTemplate f) →
     customTemplates saved.1 = customTemplates f ++ [newTemplate f]
     ∧ saved.2 = Some (customTemplates saved.1)
     ∧ newTemplate saved.1 = blankTemplate
     ∧ isAddingTemplate saved.1 = false
     ∧ customTemplates
         (deleteCustomTemplate (length (customTemplates f)) saved.1).1
       = customTemplates f)
  ∧ deleted.2 = Some (customTemplates deleted.1)
  ∧ customTemplates deleted.1
    = take idx (customTemplates f) ++ drop (S idx) (customTemplates f)
  ∧ saveCustomTemplate saved.1 = (saved.1, None).
Proof.
  intros Hall saved deleted.
  assert (complete (newTemplate f) →
          saved = ({| customTemplates := customTemplates f ++ [newTemplate f];
                      newTemplate := blankTemplate;
                      isAddingTemplate := false |},
                   Some (customTemplates f ++ [newTemplate f]))) as Hyes.
  { intros (Hl & Hk & Hv). unfold saved, saveCustomTemplate.
    apply truthy_nonempty in Hl, Hk, Hv. by rewrite Hl, Hk, Hv. }
  assert (¬ complete (newTemplate f) → saved = (f, None)) as Hno.
  { intros Hnot. unfold saved, saveCustomTemplate.
    destruct (Js.truthy (t_label (newTemplate f))) eqn:Hl; [|done].
    destruct (Js.truthy (t_key (newTemplate f))) eqn:Hk; [|done].
    destruct (Js.truthy (t_value (newTemplate f))) eqn:Hv; [|done].
    exfalso. apply Hnot. unfold complete. by rewrite <-!truthy_nonempty. }
  assert (Decision (complete (newTemplate f))) as Hdec.
  { unfold complete. apply _. }
  split_and!.
  - destruct Hdec as [Hc|Hc].
    + rewrite (Hyes Hc). simpl. apply Forall_app. split; [done|].
      by apply Forall_singleton.
    + by rewrite (Hno Hc).
  - unfold deleted. simpl. rewrite removeAt_delete, delete_take_drop.
    apply Forall_app. split; [by apply Forall_take | by apply Forall_drop].
  - done.
  - intros Hc. rewrite (Hyes Hc). simpl. split_and!; try done.
    apply removeAt_last.
  - done.
  - unfold deleted. simpl. by rewrite removeAt_delete, delete_take_drop.
  - destruct Hdec as [Hc|Hc].
    + by rewrite (Hyes Hc).
    + rewrite (Hno Hc). simpl. by apply Hno.
Qed.

Lemma custom_templates_complete_witness :
  let t := {| t_label := "Prod"; t_key := "env"; t_value := "prod" |} in
  let f := {| customTemplates := []; newTemplate := t;
              isAddingTemplate := true |} in
  Forall complete (customTemplates f)
  ∧ customTemplates (saveCustomTemplate f).1 = [t]
  ∧ Forall complete (customTemplates (saveCustomTemplate f).1).
Proof.
  intros t f. assert (Forall complete (customTemplates f)) as Hall
    by constructor.
  destruct (custom_templates_complete f 0 Hall) as (Hsaved & _).
  split_and!; [done | reflexivity | exact Hsaved].
Defined.
